(** * MOOSE: boundary restriction and material property storage

    A shallow embedding of [framework/src/base/BoundaryRestrictable.C]
    (the boundary-restriction mixin) and of [MaterialProperty.h] (the
    per-quadrature-point property slot), with the properties of the
    design specification stated and proved over it. *)

From Stdlib Require Import Ascii.
From stdpp Require Import base decidable option list list_numbers sorting
  strings pretty gmap fin_maps.

Local Open Scope Z_scope.

(** ** The C++ standard library pieces the code relies on *)

Module Std.

(** [std::set<T>] over an integral key: the elements in strictly
    ascending order.  Iteration ([begin()] .. [end()]) walks the list. *)
Abbreviation set := (list Z).

Definition is_set (s : set) : Prop := StronglySorted Z.lt s.

#[global] Instance is_set_dec s : Decision (is_set s).
Proof. unfold is_set. apply _. Defined.

(** [s.empty()] *)
Definition empty (s : set) : bool :=
  match s with [] => true | _ :: _ => false end.

(** [s.find(x) != s.end()] *)
Definition contains (x : Z) (s : set) : bool := bool_decide (x ∈ s).

(** [s.insert(x)]: the key goes to its place in the order, a key that
    is already present is not inserted again. *)
Fixpoint insert (x : Z) (s : set) : set :=
  match s with
  | [] => [x]
  | y :: s' =>
      if x <? y then x :: y :: s'
      else if y <? x then y :: insert x s'
      else y :: s'
  end.

(** [s.insert(first, last)] *)
Definition insert_range (xs : list Z) (s : set) : set :=
  foldl (fun acc x => insert x acc) s xs.

(** [std::includes(first1, last1, first2, last2)] on sorted ranges:
    the single forward pass of the standard algorithm. *)
Fixpoint includes (r1 r2 : list Z) : bool :=
  match r2 with
  | [] => true
  | y :: r2' =>
      match r1 with
      | [] => false
      | x :: r1' =>
          if y <? x then false
          else if x <? y then includes r1' r2
          else includes r1' r2'
      end
  end.

(** [std::set_difference(first1, last1, first2, last2, out)] on sorted
    ranges, the output collected in order. *)
Fixpoint set_difference (r1 : list Z) : list Z -> list Z :=
  fix walk (r2 : list Z) : list Z :=
    match r1 with
    | [] => []
    | x :: r1' =>
        match r2 with
        | [] => r1
        | y :: r2' =>
            if x <? y then x :: set_difference r1' r2
            else if y <? x then walk r2'
            else set_difference r1' r2'
        end
    end.

End Std.

(** ** Error reporting

    [mooseError(msg)] aborts the run with a formatted message: a
    computation either yields its value or stops with that message. *)

Inductive result (A : Type) : Type :=
  | Ok (a : A)
  | mooseError (msg : string).
Arguments Ok {A} a.
Arguments mooseError {A} msg.

(** ** BoundaryRestrictable *)

Module BoundaryRestrictable.

Abbreviation BoundaryID := Z.
Abbreviation SubdomainID := Z.
Abbreviation BoundaryName := string.

(** The reserved identifiers of namespace [Moose].  Their header is
    outside the files embedded here, so the development is parametric
    in their values. *)
Class MooseIds := {
  ANY_BOUNDARY_ID : BoundaryID;
  INVALID_BOUNDARY_ID : BoundaryID;
  ANY_BLOCK_ID : SubdomainID
}.

(** The mesh interface the mixin consumes: name resolution and the
    set of boundary ids that exist on the mesh. *)
Record MooseMesh := {
  getBoundaryIDs : list BoundaryName -> bool -> list BoundaryID;
  meshBoundaryIds : Std.set
}.

Record FEProblem := {
  mesh : MooseMesh;
  getCurrentBoundaryID : BoundaryID
}.

(** The entries of the parameter bag the mixin reads.  An optional
    field is [None] when [isParamValid] answers false. *)
Record InputParameters := {
  p_name : string;
  p_boundary : option (list BoundaryName);
  p_dual_restrictable : bool;
  p_fe_problem : option FEProblem;
  p_mesh : option MooseMesh
}.

Record t := {
  _bnd_feproblem : option FEProblem;
  _bnd_mesh : option MooseMesh;
  _bnd_ids : Std.set;
  _boundary_names : list BoundaryName;
  _bnd_dual_restrictable : bool;
  _invalid_boundary_id : BoundaryID;
  _boundary_restricted : bool;
  _block_ids : Std.set;
  _current_boundary_id : BoundaryID
}.

Definition with_bnd_mesh (m : option MooseMesh) (this : t) : t :=
  {| _bnd_feproblem := _bnd_feproblem this; _bnd_mesh := m;
     _bnd_ids := _bnd_ids this; _boundary_names := _boundary_names this;
     _bnd_dual_restrictable := _bnd_dual_restrictable this;
     _invalid_boundary_id := _invalid_boundary_id this;
     _boundary_restricted := _boundary_restricted this;
     _block_ids := _block_ids this;
     _current_boundary_id := _current_boundary_id this |}.

Definition with_bnd_ids (s : Std.set) (this : t) : t :=
  {| _bnd_feproblem := _bnd_feproblem this; _bnd_mesh := _bnd_mesh this;
     _bnd_ids := s; _boundary_names := _boundary_names this;
     _bnd_dual_restrictable := _bnd_dual_restrictable this;
     _invalid_boundary_id := _invalid_boundary_id this;
     _boundary_restricted := _boundary_restricted this;
     _block_ids := _block_ids this;
     _current_boundary_id := _current_boundary_id this |}.

Definition with_boundary_names (ns : list BoundaryName) (this : t) : t :=
  {| _bnd_feproblem := _bnd_feproblem this; _bnd_mesh := _bnd_mesh this;
     _bnd_ids := _bnd_ids this; _boundary_names := ns;
     _bnd_dual_restrictable := _bnd_dual_restrictable this;
     _invalid_boundary_id := _invalid_boundary_id this;
     _boundary_restricted := _boundary_restricted this;
     _block_ids := _block_ids this;
     _current_boundary_id := _current_boundary_id this |}.

Definition with_boundary_restricted (b : bool) (this : t) : t :=
  {| _bnd_feproblem := _bnd_feproblem this; _bnd_mesh := _bnd_mesh this;
     _bnd_ids := _bnd_ids this; _boundary_names := _boundary_names this;
     _bnd_dual_restrictable := _bnd_dual_restrictable this;
     _invalid_boundary_id := _invalid_boundary_id this;
     _boundary_restricted := b;
     _block_ids := _block_ids this;
     _current_boundary_id := _current_boundary_id this |}.

(** The three messages [initializeBoundaryRestrictable] can abort with. *)
Definition no_mesh_msg : string :=
  "The input parameters must contain a pointer to FEProblem via '_fe_problem' or a pointer to the MooseMesh via '_mesh'".

Definition dual_restriction_msg (name : string) : string :=
  "Attempted to restrict the object '" +:+ name +:+
  "' to a boundary, but the object is already restricted by block(s)".

(** [msg << " " << *it] for every element of [diff], after the header. *)
Definition missing_ids_msg (name : string) (diff : list BoundaryID) : string :=
  foldl (fun msg id => msg +:+ " " +:+ pretty id)
    ("The object '" +:+ name +:+
     "' contains the following boundary ids that do no exist on the mesh:")
    diff.

(** Test mode of the set-valued membership query. *)
Inductive TEST_TYPE := ALL | ANY.

Section WithIds.
Context `{Ids : MooseIds}.

Definition initializeBoundaryRestrictable
    (parameters : InputParameters) (this : t) : result t :=
  let name := p_name parameters in
  (* If the mesh pointer is not defined, but FEProblem is, get it from there *)
  let this :=
    match _bnd_feproblem this, _bnd_mesh this with
    | Some fe, None => with_bnd_mesh (Some (mesh fe)) this
    | _, _ => this
    end in
  (* Check that the mesh pointer was defined *)
  match _bnd_mesh this with
  | None => mooseError no_mesh_msg
  | Some bnd_mesh =>
      (* If the user supplies boundary IDs *)
      let this :=
        match p_boundary parameters with
        | Some names =>
            let this := with_boundary_names names this in
            let vec_ids := getBoundaryIDs bnd_mesh (_boundary_names this) true in
            if bool_decide ("ANY_BOUNDARY_ID" ∈ _boundary_names this)
            then with_bnd_ids (Std.insert ANY_BOUNDARY_ID (_bnd_ids this)) this
            else with_bnd_ids (Std.insert_range vec_ids (_bnd_ids this)) this
        | None => this
        end in
      (* Error if the object may not be both block and boundary restricted *)
      if negb (_bnd_dual_restrictable this)
         && negb (Std.empty (_bnd_ids this))
         && negb (Std.empty (_block_ids this))
         && (negb (Std.empty (_block_ids this))
             && negb (Std.contains ANY_BLOCK_ID (_block_ids this)))
      then mooseError (dual_restriction_msg name)
      else
        (* Store ANY_BOUNDARY_ID if empty *)
        let this :=
          if Std.empty (_bnd_ids this)
          then with_boundary_names ["ANY_BOUNDARY_ID"]
                 (with_bnd_ids (Std.insert ANY_BOUNDARY_ID (_bnd_ids this)) this)
          else with_boundary_restricted true this in
        (* Check that the restricted ids exist on the mesh *)
        if negb (Std.contains ANY_BOUNDARY_ID (_bnd_ids this))
        then
          let valid_ids := meshBoundaryIds bnd_mesh in
          let diff := Std.set_difference (_bnd_ids this) valid_ids in
          if negb (Std.empty diff)
          then mooseError (missing_ids_msg name diff)
          else Ok this
        else Ok this
  end.

(** The member initialisers shared by both constructors. *)
Definition members (parameters : InputParameters) (block_ids : Std.set) : t :=
  {| _bnd_feproblem := p_fe_problem parameters;
     _bnd_mesh := p_mesh parameters;
     _bnd_ids := [];
     _boundary_names := [];
     _bnd_dual_restrictable := p_dual_restrictable parameters;
     _invalid_boundary_id := INVALID_BOUNDARY_ID;
     _boundary_restricted := false;
     _block_ids := block_ids;
     _current_boundary_id :=
       match p_fe_problem parameters with
       | None => INVALID_BOUNDARY_ID
       | Some fe => getCurrentBoundaryID fe
       end |}.

Definition _empty_block_ids : Std.set := [].

(** Standard constructor *)
Definition BoundaryRestrictable (parameters : InputParameters) : result t :=
  initializeBoundaryRestrictable parameters (members parameters _empty_block_ids).

(** Dual restricted constructor *)
Definition BoundaryRestrictable_dual
    (parameters : InputParameters) (block_ids : Std.set) : result t :=
  initializeBoundaryRestrictable parameters (members parameters block_ids).

Definition boundaryIDs (this : t) : Std.set := _bnd_ids this.

Definition boundaryNames (this : t) : list BoundaryName := _boundary_names this.

Definition numBoundaryIDs (this : t) : nat := length (_bnd_ids this).

(** [hasBoundary(BoundaryID)] *)
Definition hasBoundary (this : t) (id : BoundaryID) : bool :=
  if Std.empty (_bnd_ids this) || Std.contains ANY_BOUNDARY_ID (_bnd_ids this)
  then true
  else Std.contains id (_bnd_ids this).

(** The loop of the ANY branch: the first supplied id the object has
    answers true, running off the end answers false. *)
Fixpoint hasBoundary_any_loop (this : t) (ids : list BoundaryID) : bool :=
  match ids with
  | [] => false
  | it :: rest =>
      let test := hasBoundary this it in
      if test then true else hasBoundary_any_loop this rest
  end.

(** [hasBoundary(std::set<BoundaryID>, TEST_TYPE)] *)
Definition hasBoundary_set (this : t) (ids : Std.set) (type : TEST_TYPE) : bool :=
  (* An empty input is assumed to be ANY_BOUNDARY_ID *)
  if Std.empty ids || Std.contains ANY_BOUNDARY_ID ids then true
  else
    match type with
    | ALL =>
        if Std.contains ANY_BOUNDARY_ID (_bnd_ids this) then true
        else Std.includes (_bnd_ids this) ids
    | ANY => hasBoundary_any_loop this ids
    end.

(** [hasBoundary(std::vector<BoundaryID>, TEST_TYPE)] *)
Definition hasBoundary_vector
    (this : t) (ids : list BoundaryID) (type : TEST_TYPE) : bool :=
  let ids_set := Std.insert_range ids [] in
  hasBoundary_set this ids_set type.

(** [isBoundarySubset(std::set<BoundaryID>)].  The mesh is reached
    through [_bnd_mesh]; a null pointer there has no answer. *)
Definition isBoundarySubset (this : t) (ids : Std.set) : option bool :=
  if Std.empty ids || Std.contains ANY_BOUNDARY_ID ids then Some true
  else if Std.contains ANY_BOUNDARY_ID (_bnd_ids this)
  then bnd_mesh ← _bnd_mesh this;
       Some (Std.includes ids (meshBoundaryIds bnd_mesh))
  else Some (Std.includes ids (_bnd_ids this)).

(** [isBoundarySubset(std::vector<BoundaryID>)] *)
Definition isBoundarySubset_vector (this : t) (ids : list BoundaryID) : option bool :=
  let ids_set := Std.insert_range ids [] in
  isBoundarySubset this ids_set.

(** [hasBoundary(std::vector<BoundaryName>)].  The call leaves two
    arguments to the defaults of the declarations in the header:
    [generate_unknown] of [getBoundaryIDs] and the test mode of the
    overload on ids.  They are passed explicitly here.  The mesh is
    reached through [_bnd_mesh]; a null pointer there has no answer. *)
Definition hasBoundary_names (generate_unknown : bool) (type : TEST_TYPE)
    (this : t) (names : list BoundaryName) : option bool :=
  bnd_mesh ← _bnd_mesh this;
  Some (hasBoundary_vector this
          (getBoundaryIDs bnd_mesh names generate_unknown) type).

(** [hasBoundary(BoundaryName)]: a vector of the one name goes through
    [getBoundaryIDs] and the overload on id vectors. *)
Definition hasBoundary_name (generate_unknown : bool) (type : TEST_TYPE)
    (this : t) (name : BoundaryName) : option bool :=
  let names := [name] in
  bnd_mesh ← _bnd_mesh this;
  Some (hasBoundary_vector this
          (getBoundaryIDs bnd_mesh names generate_unknown) type).

(** *** Vocabulary for the statements below *)

(** The mesh an object gets: [_mesh] when supplied, otherwise the
    mesh of [_fe_problem]. *)
Definition mesh_of (parameters : InputParameters) : option MooseMesh :=
  match p_mesh parameters with
  | Some m => Some m
  | None => mesh <$> p_fe_problem parameters
  end.

(** The object is restricted to blocks: its block set is non-empty
    and does not hold the any-block id. *)
Definition block_restricted (block_ids : Std.set) : bool :=
  negb (Std.empty block_ids) && negb (Std.contains ANY_BLOCK_ID block_ids).

(** The id set the [boundary] parameter leaves in [_bnd_ids] before
    any check is made. *)
Definition supplied_ids (m : MooseMesh) (boundary : option (list BoundaryName)) : Std.set :=
  match boundary with
  | Some names =>
      if bool_decide ("ANY_BOUNDARY_ID" ∈ names) then [ANY_BOUNDARY_ID]
      else Std.insert_range (getBoundaryIDs m names true) []
  | None => []
  end.

(** The object a successful initialisation leaves behind. *)
Definition initialized (parameters : InputParameters) (block_ids : Std.set)
    (m : MooseMesh) (ids : Std.set) (names : list BoundaryName)
    (restricted : bool) : t :=
  {| _bnd_feproblem := p_fe_problem parameters;
     _bnd_mesh := Some m;
     _bnd_ids := ids;
     _boundary_names := names;
     _bnd_dual_restrictable := p_dual_restrictable parameters;
     _invalid_boundary_id := INVALID_BOUNDARY_ID;
     _boundary_restricted := restricted;
     _block_ids := block_ids;
     _current_boundary_id :=
       match p_fe_problem parameters with
       | None => INVALID_BOUNDARY_ID
       | Some fe => getCurrentBoundaryID fe
       end |}.

End WithIds.

End BoundaryRestrictable.

(** ** MaterialProperty *)

Module MaterialProperty.

(** A binary stream: the bytes written so far ([std::ofstream]), or
    the bytes still to be read ([std::ifstream]). *)
Abbreviation ofstream := (list Byte.byte).
Abbreviation ifstream := (list Byte.byte).

(** [materialPropertyStore<T>] and [materialPropertyLoad<T>] come from
    [MaterialPropertyIO.h], outside the files embedded here: an element
    type brings its own pair.  The loader receives the
    element by reference and hands back its new value. *)
Class MaterialPropertyIO (T : Type) := {
  materialPropertyStore : ofstream -> T -> ofstream;
  materialPropertyLoad : ifstream -> T -> ifstream * T
}.

(** What makes [T] a plain scalar for persistence: storing appends a
    byte image of the value, and loading that image gives the value
    back, consuming exactly the image. *)
Class ScalarIO (T : Type) `{MaterialPropertyIO T} := {
  image : T -> list Byte.byte;
  store_image : forall (stream : ofstream) (v : T),
    materialPropertyStore stream v = stream ++ image v;
  load_image : forall (v old : T) (rest : ifstream),
    materialPropertyLoad (image v ++ rest) old = (rest, v)
}.

(** [typeid(T).name()]: the name the implementation gives an element
    type. *)
Class Typeid (T : Type) := type_name : string.
Arguments type_name T {_}.

(** Addresses of array storage on the free store. *)
Abbreviation addr := positive.

(** Modelled from the spec: [MooseArray<T>] ([MooseArray.h]) is missing
    from the sources.  It is a resizable per-point array whose element
    access leaves bounds checking to the caller and whose shallow copy
    aliases the underlying storage instead of copying it: the array
    object holds the address of its storage and its element count. *)
Record MooseArray (T : Type) := {
  _data : addr;
  _size : nat;
  _allocated_size : nat
}.
Arguments _data {T} _.
Arguments _size {T} _.
Arguments _allocated_size {T} _.

(** [MaterialProperty<T>]: its one data member. *)
Record t (T : Type) := { _value : MooseArray T }.
Arguments _value {T} _.

Section WithElementType.
Context {T : Type}.

(** The free store: the element storage found at each address. *)
Abbreviation heap := (gmap addr (list T)).

(** Modelled from the spec: [MooseArray<T>::size]. *)
Definition size (a : MooseArray T) : nat := _size a.

(** Modelled from the spec: reading [a[i]].  An index outside the
    storage has no defined value. *)
Definition get (h : heap) (a : MooseArray T) (i : nat) : option T :=
  cells ← h !! _data a; cells !! i.

(** Modelled from the spec: assigning [a[i] = v], in place. *)
Definition set (h : heap) (a : MooseArray T) (i : nat) (v : T) : option heap :=
  cells ← h !! _data a;
  if decide (i < length cells)%nat
  then Some (<[_data a := <[i := v]> cells]> h)
  else None.


(** [MaterialProperty<T>::size] *)
Definition property_size (this : t T) : nat := size (_value this).




Section Copying.
Context `{Typeid T}.

(** [MaterialProperty<T>::type] *)
Definition type (this : t T) : string := type_name T.



End Copying.

Context `{MaterialPropertyIO T}.

(** The body of the loop of [store], for the indices still to visit. *)
Fixpoint store_loop (h : heap) (this : t T) (indices : list nat)
    (stream : ofstream) : option ofstream :=
  match indices with
  | [] => Some stream
  | i :: indices' =>
      v ← get h (_value this) i;
      store_loop h this indices' (materialPropertyStore stream v)
  end.

(** [MaterialProperty<T>::store]:
    [for (i = 0; i < _value.size(); i++) materialPropertyStore(stream, _value[i])] *)
Definition store (h : heap) (this : t T) (stream : ofstream) : option ofstream :=
  store_loop h this (seq 0 (size (_value this))) stream.

(** The body of the loop of [load]: the element is read into in place. *)
Fixpoint load_loop (this : t T) (indices : list nat)
    (h : heap) (stream : ifstream) : option (heap * ifstream) :=
  match indices with
  | [] => Some (h, stream)
  | i :: indices' =>
      old ← get h (_value this) i;
      let '(stream', v) := materialPropertyLoad stream old in
      h' ← set h (_value this) i v;
      load_loop this indices' h' stream'
  end.

(** [MaterialProperty<T>::load]:
    [for (i = 0; i < _value.size(); i++) materialPropertyLoad(stream, _value[i])] *)
Definition load (h : heap) (this : t T) (stream : ifstream) : option (heap * ifstream) :=
  load_loop this (seq 0 (size (_value this))) h stream.

(** The values a slot holds: the first [size] elements of its storage. *)
Definition values (h : heap) (this : t T) : option (list T) :=
  cells ← h !! _data (_value this);
  if decide (size (_value this) ≤ length cells)%nat
  then Some (take (size (_value this)) cells)
  else None.


End WithElementType.


(** [unsigned char] as an element type: one byte, written and read as is. *)
#[global] Instance uchar_io : MaterialPropertyIO Byte.byte := {
  materialPropertyStore stream v := stream ++ [v];
  materialPropertyLoad stream old :=
    match stream with
    | [] => ([], old)
    | b :: rest => (rest, b)
    end
}.

(** The names of [unsigned char] and [bool]. *)
#[global] Instance uchar_typeid : Typeid Byte.byte := "h".
#[global] Instance bool_typeid : Typeid bool := "b".

End MaterialProperty.

(** ** A small mesh to run the definitions on *)

Module Sample.
Import BoundaryRestrictable.

(** Some values for the reserved ids, apart from every id used below. *)
Definition ids : MooseIds :=
  {| ANY_BOUNDARY_ID := -1; INVALID_BOUNDARY_ID := -123; ANY_BLOCK_ID := 65535 |}.

Definition resolve (name : BoundaryName) : BoundaryID :=
  if decide (name = "left") then 2
  else if decide (name = "right") then 4
  else if decide (name = "bottom") then 7
  else if decide (name = "top") then 9
  else 0.

(** Boundaries 1 to 4 exist; ["bottom"] and ["top"] name ids that do not. *)
Definition mesh : MooseMesh :=
  {| getBoundaryIDs names _ := resolve <$> names;
     meshBoundaryIds := [1; 2; 3; 4] |}.

Definition parameters (boundary : option (list BoundaryName)) : InputParameters :=
  {| p_name := "bc";
     p_boundary := boundary;
     p_dual_restrictable := false;
     p_fe_problem := None;
     p_mesh := Some mesh |}.

(** Three bytes at address 1, three others at address 2. *)
Definition heap : gmap MaterialProperty.addr (list Byte.byte) :=
  {[ 1%positive := [Byte.x01; Byte.x02; Byte.x03];
     2%positive := [Byte.x00; Byte.x00; Byte.x00] ]}.

Definition slot (data : MaterialProperty.addr) : MaterialProperty.t Byte.byte :=
  {| MaterialProperty._value :=
       {| MaterialProperty._data := data;
          MaterialProperty._size := 3;
          MaterialProperty._allocated_size := 3 |} |}.

End Sample.

(** ** Facts about the standard containers and algorithms *)

Module StdFacts.
Import Std.

Lemma is_set_cons x s :
  is_set (x :: s) <-> Forall (Z.lt x) s /\ is_set s.
Proof. unfold is_set. apply StronglySorted_cons. Qed.

Lemma is_set_tail x s : is_set (x :: s) -> is_set s.
Proof. rewrite is_set_cons. tauto. Qed.

Lemma is_set_head_lt x y s : is_set (x :: s) -> y ∈ s -> x < y.
Proof.
  rewrite is_set_cons, Forall_forall. intros [Hall _] Hy. auto.
Qed.

Lemma is_set_head_notin x s : is_set (x :: s) -> x ∉ s.
Proof. intros Hs Hx. pose proof (is_set_head_lt _ _ _ Hs Hx). lia. Qed.

Lemma empty_true s : empty s = true <-> s = [].
Proof. destruct s; simpl; split; congruence. Qed.

Lemma empty_false s : empty s = false <-> s ≠ [].
Proof. destruct s; simpl; split; congruence. Qed.

Lemma contains_true x s : contains x s = true <-> x ∈ s.
Proof. unfold contains. apply bool_decide_eq_true. Qed.

Lemma contains_false x s : contains x s = false <-> x ∉ s.
Proof. unfold contains. apply bool_decide_eq_false. Qed.

(** *** [insert] *)

Lemma elem_of_insert y x s : y ∈ insert x s <-> y = x \/ y ∈ s.
Proof.
  induction s as [|z s IH]; simpl.
  - rewrite list_elem_of_singleton, elem_of_nil. tauto.
  - destruct (Z.ltb_spec x z) as [Hxz|Hxz].
    + rewrite !elem_of_cons. tauto.
    + destruct (Z.ltb_spec z x) as [Hzx|Hzx].
      * rewrite !elem_of_cons, IH. tauto.
      * assert (x = z) by lia. subst. rewrite !elem_of_cons. tauto.
Qed.

Lemma insert_is_set x s : is_set s -> is_set (insert x s).
Proof.
  induction s as [|z s IH]; simpl; intros Hs.
  - apply is_set_cons. split; [constructor | exact Hs].
  - apply is_set_cons in Hs as Hzs. destruct Hzs as [Hall Htl].
    destruct (Z.ltb_spec x z) as [Hxz|Hxz].
    + apply is_set_cons. split; [|exact Hs].
      constructor; [exact Hxz|].
      eapply Forall_impl; [exact Hall|]. intros; simpl in *; lia.
    + destruct (Z.ltb_spec z x) as [Hzx|Hzx]; [|exact Hs].
      apply is_set_cons. split; [|auto].
      apply Forall_forall. intros y Hy.
      apply elem_of_insert in Hy as [->|Hy]; [exact Hzx|].
      rewrite Forall_forall in Hall. auto.
Qed.

Lemma insert_nonempty x s : insert x s ≠ [].
Proof.
  destruct s as [|z s]; simpl; [discriminate|].
  destruct (x <? z); [discriminate|]. destruct (z <? x); discriminate.
Qed.

Lemma insert_nil x : insert x [] = [x].
Proof. reflexivity. Qed.

(** *** [insert_range] *)

Lemma elem_of_insert_range y xs s :
  y ∈ insert_range xs s <-> y ∈ xs \/ y ∈ s.
Proof.
  unfold insert_range. revert s.
  induction xs as [|x xs IH]; intros s; simpl.
  - rewrite elem_of_nil. tauto.
  - rewrite IH, elem_of_insert, elem_of_cons. tauto.
Qed.

Lemma insert_range_is_set xs s : is_set s -> is_set (insert_range xs s).
Proof.
  unfold insert_range. revert s.
  induction xs as [|x xs IH]; intros s Hs; simpl; [exact Hs|].
  apply IH, insert_is_set, Hs.
Qed.

Lemma insert_range_nil_iff xs : insert_range xs [] = [] <-> xs = [].
Proof.
  split; [|intros ->; reflexivity].
  destruct xs as [|x xs]; [reflexivity|]. intros Hnil. exfalso.
  assert (Hx : x ∈ insert_range (x :: xs) []).
  { apply elem_of_insert_range. left. apply elem_of_cons. by left. }
  rewrite Hnil in Hx. by apply elem_of_nil in Hx.
Qed.

(** *** [includes] *)

Lemma includes_nil_r r1 : includes r1 [] = true.
Proof. destruct r1; reflexivity. Qed.

Lemma includes_spec r1 r2 :
  is_set r1 -> is_set r2 ->
  includes r1 r2 = true <-> (forall x, x ∈ r2 -> x ∈ r1).
Proof.
  revert r2. induction r1 as [|x r1 IH]; intros r2 Hs1 Hs2.
  - destruct r2 as [|y r2]; simpl.
    + split; [intros _ x Hx; by apply elem_of_nil in Hx | reflexivity].
    + split; [discriminate|]. intros Hsub.
      specialize (Hsub y (list_elem_of_here _ _)). by apply elem_of_nil in Hsub.
  - destruct r2 as [|y r2]; simpl.
    + split; [intros _ z Hz; by apply elem_of_nil in Hz | reflexivity].
    + pose proof (is_set_tail _ _ Hs1) as Ht1.
      pose proof (is_set_tail _ _ Hs2) as Ht2.
      destruct (Z.ltb_spec y x) as [Hyx|Hyx].
      * split; [discriminate|]. intros Hsub. exfalso.
        specialize (Hsub y (list_elem_of_here _ _)).
        apply elem_of_cons in Hsub as [->|Hin]; [lia|].
        pose proof (is_set_head_lt _ _ _ Hs1 Hin). lia.
      * destruct (Z.ltb_spec x y) as [Hxy|Hxy].
        -- rewrite (IH (y :: r2) Ht1 Hs2). split; intros Hsub z Hz.
           ++ apply elem_of_cons. right. auto.
           ++ specialize (Hsub z Hz).
              apply elem_of_cons in Hsub as [->|Hin]; [|exact Hin].
              exfalso. apply elem_of_cons in Hz as [->|Hz]; [lia|].
              pose proof (is_set_head_lt _ _ _ Hs2 Hz). lia.
        -- assert (x = y) by lia. subst y.
           rewrite (IH r2 Ht1 Ht2). split; intros Hsub z Hz.
           ++ apply elem_of_cons in Hz as [->|Hz];
                [apply list_elem_of_here | apply elem_of_cons; right; auto].
           ++ assert (Hz' : z ∈ x :: r2) by (apply elem_of_cons; by right).
              specialize (Hsub z Hz').
              apply elem_of_cons in Hsub as [->|Hin]; [|exact Hin].
              exfalso. by apply (is_set_head_notin _ _ Hs2).
Qed.

(** *** [set_difference] *)

Lemma filter_agree (P Q : Z -> Prop)
    `{!forall x, Decision (P x)} `{!forall x, Decision (Q x)} (l : list Z) :
  (forall x, x ∈ l -> P x <-> Q x) -> filter P l = filter Q l.
Proof.
  induction l as [|x l IH]; intros Hagree; [reflexivity|].
  assert (Htl : filter P l = filter Q l).
  { apply IH. intros z Hz. apply Hagree, elem_of_cons. by right. }
  pose proof (Hagree x (list_elem_of_here _ _)) as Hx.
  rewrite !filter_cons, Htl.
  repeat case_decide; tauto.
Qed.

Lemma filter_notin_nil (l : list Z) : filter (fun x => x ∉ []) l = l.
Proof.
  induction l as [|x l IH]; [reflexivity|].
  rewrite filter_cons_True, IH; [reflexivity | apply not_elem_of_nil].
Qed.

Lemma set_difference_nil_r r1 : set_difference r1 [] = r1.
Proof. destruct r1; reflexivity. Qed.

(** On sets the merge pass keeps, in order, exactly the elements of
    the first range that the second one lacks. *)
Lemma set_difference_filter r1 r2 :
  is_set r1 -> is_set r2 ->
  set_difference r1 r2 = filter (fun x => x ∉ r2) r1.
Proof.
  revert r2. induction r1 as [|x r1 IH]; intros r2 Hs1 Hs2.
  { destruct r2; reflexivity. }
  pose proof (is_set_tail _ _ Hs1) as Ht1.
  induction r2 as [|y r2 IH2].
  { rewrite set_difference_nil_r. symmetry. apply filter_notin_nil. }
  pose proof (is_set_tail _ _ Hs2) as Ht2.
  change (set_difference (x :: r1) (y :: r2)) with
    (if x <? y then x :: set_difference r1 (y :: r2)
     else if y <? x then set_difference (x :: r1) r2
     else set_difference r1 r2).
  destruct (Z.ltb_spec x y) as [Hxy|Hxy].
  - rewrite (IH _ Ht1 Hs2), filter_cons_True; [reflexivity|].
    intros Hin. apply elem_of_cons in Hin as [->|Hin]; [lia|].
    pose proof (is_set_head_lt _ _ _ Hs2 Hin). lia.
  - destruct (Z.ltb_spec y x) as [Hyx|Hyx].
    + rewrite (IH2 Ht2). apply filter_agree. intros z Hz.
      rewrite not_elem_of_cons.
      assert (z ≠ y); [|tauto].
      apply elem_of_cons in Hz as [->|Hz]; [lia|].
      pose proof (is_set_head_lt _ _ _ Hs1 Hz). lia.
    + assert (x = y) by lia. subst y.
      rewrite (IH _ Ht1 Ht2), filter_cons_False.
      * apply filter_agree. intros z Hz. rewrite not_elem_of_cons.
        assert (z ≠ x); [|tauto].
        intros ->. by apply (is_set_head_notin _ _ Hs1).
      * intros Hnot. apply Hnot, list_elem_of_here.
Qed.

Lemma elem_of_set_difference r1 r2 x :
  is_set r1 -> is_set r2 ->
  x ∈ set_difference r1 r2 <-> x ∈ r1 /\ x ∉ r2.
Proof.
  intros Hs1 Hs2. rewrite (set_difference_filter _ _ Hs1 Hs2).
  rewrite list_elem_of_filter. tauto.
Qed.

Lemma set_difference_nil_iff r1 r2 :
  is_set r1 -> is_set r2 ->
  set_difference r1 r2 = [] <-> (forall x, x ∈ r1 -> x ∈ r2).
Proof.
  intros Hs1 Hs2. split.
  - intros Hnil x Hx. destruct (decide (x ∈ r2)) as [|Hnot]; [done|].
    exfalso. assert (Hd : x ∈ set_difference r1 r2)
      by (apply elem_of_set_difference; auto).
    rewrite Hnil in Hd. by apply elem_of_nil in Hd.
  - intros Hsub. destruct (set_difference r1 r2) as [|z d] eqn:Hd; [done|].
    exfalso. assert (Hz : z ∈ set_difference r1 r2)
      by (rewrite Hd; apply list_elem_of_here).
    apply elem_of_set_difference in Hz as [Hz1 Hz2]; auto.
Qed.

Lemma set_difference_is_set r1 r2 :
  is_set r1 -> is_set r2 -> is_set (set_difference r1 r2).
Proof.
  intros Hs1 Hs2. rewrite (set_difference_filter _ _ Hs1 Hs2).
  clear Hs2. induction r1 as [|x r1 IH]; [constructor|].
  apply is_set_cons in Hs1 as Hc. destruct Hc as [Hall Ht].
  rewrite filter_cons. case_decide; [|auto].
  apply is_set_cons. split; [|auto].
  apply Forall_forall. intros z Hz.
  apply list_elem_of_filter in Hz as [_ Hz].
  rewrite Forall_forall in Hall. auto.
Qed.

(** *** Further facts used for the overloads on vectors *)

(** A successful pass has found every element of the second range,
    sorted or not. *)
Lemma includes_sound r1 r2 :
  includes r1 r2 = true -> forall x, x ∈ r2 -> x ∈ r1.
Proof.
  revert r2. induction r1 as [|a r1 IH]; intros r2 Hinc x Hx.
  - destruct r2; [by apply elem_of_nil in Hx | discriminate].
  - destruct r2 as [|b r2]; [by apply elem_of_nil in Hx|].
    cbn in Hinc.
    destruct (Z.ltb_spec b a) as [Hba|Hba]; [discriminate|].
    destruct (Z.ltb_spec a b) as [Hab|Hab].
    + right. by apply (IH _ Hinc).
    + assert (a = b) by lia. subst b.
      apply elem_of_cons in Hx as [->|Hx]; [left|].
      right. by apply (IH _ Hinc).
Qed.

(** Two sets with the same elements are the same list. *)
Lemma is_set_ext l1 l2 :
  is_set l1 -> is_set l2 -> (forall x, x ∈ l1 <-> x ∈ l2) -> l1 = l2.
Proof.
  revert l2. induction l1 as [|a l1 IH]; intros l2 Hs1 Hs2 Hext.
  - destruct l2 as [|b l2]; [reflexivity|].
    exfalso. apply (not_elem_of_nil b), Hext. left.
  - destruct l2 as [|b l2].
    { exfalso. apply (not_elem_of_nil a), Hext. left. }
    assert (a = b).
    { assert (Ha : a ∈ b :: l2) by (apply Hext; left).
      assert (Hb : b ∈ a :: l1) by (apply Hext; left).
      apply elem_of_cons in Ha as [?|Ha]; [done|].
      apply elem_of_cons in Hb as [?|Hb]; [done|].
      pose proof (is_set_head_lt _ _ _ Hs1 Hb).
      pose proof (is_set_head_lt _ _ _ Hs2 Ha). lia. }
    subst b. f_equal.
    apply IH; [by eapply is_set_tail | by eapply is_set_tail |].
    intros x. split; intros Hx.
    + assert (Hx' : x ∈ a :: l2) by (apply Hext; by right).
      apply elem_of_cons in Hx' as [->|Hx']; [|done].
      by apply is_set_head_notin in Hs1.
    + assert (Hx' : x ∈ a :: l1) by (apply Hext; by right).
      apply elem_of_cons in Hx' as [->|Hx']; [|done].
      by apply is_set_head_notin in Hs2.
Qed.

Lemma insert_range_ext xs ys :
  (forall x, x ∈ xs <-> x ∈ ys) -> insert_range xs [] = insert_range ys [].
Proof.
  intros Hext.
  apply is_set_ext; [apply insert_range_is_set; constructor..|].
  intros x. rewrite !elem_of_insert_range, !elem_of_nil, Hext. tauto.
Qed.

Lemma length_insert_le x s : (length (insert x s) <= S (length s))%nat.
Proof.
  induction s as [|y s IH]; cbn; [lia|].
  destruct (x <? y); cbn; [lia|]. destruct (y <? x); cbn; lia.
Qed.

Lemma length_insert_range_le xs s :
  (length (insert_range xs s) <= length xs + length s)%nat.
Proof.
  unfold insert_range. revert s.
  induction xs as [|x xs IH]; intros s; cbn; [lia|].
  specialize (IH (insert x s)). pose proof (length_insert_le x s). lia.
Qed.

End StdFacts.

(** ** Facts about BoundaryRestrictable *)

Module BoundaryRestrictableFacts.
Import BoundaryRestrictable StdFacts.

#[local] Arguments Std.set_difference : simpl never.
#[local] Arguments Std.contains : simpl never.

Section WithIds.
Context `{Ids : MooseIds}.

Lemma contains_here x s : Std.contains x (x :: s) = true.
Proof. apply contains_true, list_elem_of_here. Qed.

Lemma constructor_cases parameters block_ids m :
  mesh_of parameters = Some m ->
  BoundaryRestrictable_dual parameters block_ids =
    let ids := supplied_ids m (p_boundary parameters) in
    let names := default [] (p_boundary parameters) in
    if negb (p_dual_restrictable parameters) && negb (Std.empty ids)
       && block_restricted block_ids
    then mooseError (dual_restriction_msg (p_name parameters))
    else if Std.empty ids
    then Ok (initialized parameters block_ids m
               [ANY_BOUNDARY_ID] ["ANY_BOUNDARY_ID"] false)
    else if Std.contains ANY_BOUNDARY_ID ids
    then Ok (initialized parameters block_ids m ids names true)
    else if Std.empty (Std.set_difference ids (meshBoundaryIds m))
    then Ok (initialized parameters block_ids m ids names true)
    else mooseError (missing_ids_msg (p_name parameters)
                       (Std.set_difference ids (meshBoundaryIds m))).
Proof.
  destruct parameters as [name boundary dual fe pm].
  unfold mesh_of, BoundaryRestrictable_dual, members; cbn.
  intros Hm.
  assert (Hmesh : match fe, pm with
                  | Some fe, None => Some (mesh fe)
                  | _, _ => pm
                  end = Some m).
  { destruct fe, pm; cbn in Hm; congruence. }
  clear Hm. unfold initializeBoundaryRestrictable, block_restricted.
  destruct fe as [fe|], pm as [pm|]; cbn in Hmesh; simplify_eq;
    (destruct boundary as [names|]; cbn;
     [ destruct (bool_decide ("ANY_BOUNDARY_ID" ∈ names)); cbn;
       [ | match goal with
         | |- context [Std.insert_range ?v []] =>
             generalize (Std.insert_range v [])
         end;
           intros ids; destruct ids as [|i0 ids]; cbn ]
     | ]);
    destruct dual; cbn;
    destruct (Std.empty block_ids); cbn;
    try destruct (Std.contains ANY_BLOCK_ID block_ids); cbn;
    rewrite ?contains_here; cbn; try reflexivity;
    destruct (Std.contains ANY_BOUNDARY_ID (i0 :: ids)); cbn;
    try reflexivity;
    destruct (Std.set_difference _ _); reflexivity.
Qed.

Lemma constructor_no_mesh parameters block_ids :
  mesh_of parameters = None ->
  BoundaryRestrictable_dual parameters block_ids = mooseError no_mesh_msg.
Proof.
  destruct parameters as [name boundary dual fe pm].
  unfold mesh_of, BoundaryRestrictable_dual, members,
    initializeBoundaryRestrictable; cbn.
  destruct fe, pm; cbn; intros; simplify_eq; reflexivity.
Qed.

Lemma block_restricted_true block_ids :
  block_restricted block_ids = true <->
  block_ids ≠ [] /\ ANY_BLOCK_ID ∉ block_ids.
Proof.
  unfold block_restricted.
  rewrite andb_true_iff, !negb_true_iff, empty_false, contains_false.
  reflexivity.
Qed.

Lemma block_restricted_false block_ids :
  block_restricted block_ids = false <->
  block_ids = [] \/ ANY_BLOCK_ID ∈ block_ids.
Proof.
  unfold block_restricted.
  rewrite andb_false_iff, !negb_false_iff, empty_true, contains_true.
  reflexivity.
Qed.

Lemma supplied_ids_is_set m boundary : Std.is_set (supplied_ids m boundary).
Proof.
  unfold supplied_ids. destruct boundary as [names|]; [|constructor].
  case_bool_decide.
  - apply is_set_cons. split; constructor.
  - apply insert_range_is_set. constructor.
Qed.

Lemma supplied_ids_any m names :
  "ANY_BOUNDARY_ID" ∈ names -> supplied_ids m (Some names) = [ANY_BOUNDARY_ID].
Proof. intros Hin. unfold supplied_ids. by rewrite bool_decide_eq_true_2. Qed.

Lemma supplied_ids_concrete m names :
  "ANY_BOUNDARY_ID" ∉ names ->
  supplied_ids m (Some names) = Std.insert_range (getBoundaryIDs m names true) [].
Proof. intros Hin. unfold supplied_ids. by rewrite bool_decide_eq_false_2. Qed.

Lemma elem_of_supplied_ids_concrete m names x :
  "ANY_BOUNDARY_ID" ∉ names ->
  x ∈ supplied_ids m (Some names) <-> x ∈ getBoundaryIDs m names true.
Proof.
  intros Hin. rewrite (supplied_ids_concrete _ _ Hin), elem_of_insert_range.
  rewrite elem_of_nil. tauto.
Qed.

(** Every message about missing ids starts as its header does, so it
    cannot be mistaken for the dual-restriction message. *)
Lemma foldl_append_head (f : BoundaryID -> string) c s diff :
  exists tail,
    foldl (fun msg id => msg +:+ f id) (String c s) diff = String c tail.
Proof.
  revert s. induction diff as [|x diff IH]; intros s; [by eexists|].
  apply (IH (s +:+ f x)).
Qed.

Lemma dual_msg_not_missing name name' diff :
  dual_restriction_msg name ≠ missing_ids_msg name' diff.
Proof.
  unfold dual_restriction_msg, missing_ids_msg.
  destruct (foldl_append_head (fun id => " " +:+ pretty id) ("T"%char)
              ("he object '" +:+ name' +:+
               "' contains the following boundary ids that do no exist on the mesh:")
              diff) as [tail Htail].
  intros Heq. pose proof (eq_trans Heq Htail) as Hclash.
  discriminate Hclash.
Qed.

(** What a constructed object looks like. *)
Lemma constructor_ok parameters block_ids m obj :
  mesh_of parameters = Some m ->
  BoundaryRestrictable_dual parameters block_ids = Ok obj ->
  _bnd_mesh obj = Some m
  /\ Std.is_set (_bnd_ids obj)
  /\ _bnd_ids obj ≠ []
  /\ (_bnd_ids obj = [ANY_BOUNDARY_ID] /\ _boundary_restricted obj = false
         /\ supplied_ids m (p_boundary parameters) = []
      \/ _bnd_ids obj = supplied_ids m (p_boundary parameters)
         /\ _boundary_restricted obj = true).
Proof.
  intros Hm. rewrite (constructor_cases _ _ _ Hm). cbn zeta.
  pose proof (supplied_ids_is_set m (p_boundary parameters)) as Hset.
  destruct (_ && _ && _); [discriminate|].
  destruct (Std.empty _) eqn:Hempty.
  - intros [= <-]; cbn. apply empty_true in Hempty.
    repeat split; [apply is_set_cons; split; constructor | discriminate | tauto].
  - apply empty_false in Hempty.
    destruct (Std.contains _ _); [intros [= <-]; cbn; tauto|].
    destruct (Std.empty _); [intros [= <-]; cbn; tauto | discriminate].
Qed.


(** The constructor on an absent or empty [boundary] parameter. *)
Lemma constructor_unsupplied parameters block_ids m :
  mesh_of parameters = Some m ->
  supplied_ids m (p_boundary parameters) = [] ->
  BoundaryRestrictable_dual parameters block_ids =
    Ok (initialized parameters block_ids m
          [ANY_BOUNDARY_ID] ["ANY_BOUNDARY_ID"] false).
Proof.
  intros Hm Hnil. rewrite (constructor_cases _ _ _ Hm). cbn zeta.
  rewrite Hnil. cbn. by rewrite andb_false_r.
Qed.

Lemma supplied_ids_unsupplied m boundary :
  boundary = None \/ (boundary = Some [] /\ getBoundaryIDs m [] true = []) ->
  supplied_ids m boundary = [].
Proof.
  intros [->|[-> Hres]]; [reflexivity|].
  unfold supplied_ids. rewrite bool_decide_eq_false_2 by apply not_elem_of_nil.
  by rewrite Hres.
Qed.

(** The constructor when the reserved name is among those supplied. *)
Lemma constructor_any_name parameters block_ids m names :
  mesh_of parameters = Some m ->
  p_boundary parameters = Some names ->
  "ANY_BOUNDARY_ID" ∈ names ->
  BoundaryRestrictable_dual parameters block_ids =
    if negb (p_dual_restrictable parameters) && block_restricted block_ids
    then mooseError (dual_restriction_msg (p_name parameters))
    else Ok (initialized parameters block_ids m [ANY_BOUNDARY_ID] names true).
Proof.
  intros Hm Hb Hin. rewrite (constructor_cases _ _ _ Hm). cbn zeta.
  rewrite Hb, (supplied_ids_any _ _ Hin). cbn.
  rewrite andb_true_r, contains_here. reflexivity.
Qed.

(** C1 (amended).  With a mesh at hand, construction stops with the
    dual-restriction error, which names the object, exactly when the
    dual-restriction flag is unset, the [boundary] parameter left a
    non-empty id set, and the block set is non-empty and lacks the
    any-block id.  The id set left by the parameter is the any-boundary
    singleton when the reserved name was supplied, so naming the
    sentinel does not spare the object the error; only an absent or
    empty boundary input does. *)
Theorem C1_dual_restriction_error parameters block_ids m :
  mesh_of parameters = Some m ->
  BoundaryRestrictable_dual parameters block_ids
    = mooseError (dual_restriction_msg (p_name parameters))
  <-> p_dual_restrictable parameters = false
      /\ supplied_ids m (p_boundary parameters) ≠ []
      /\ block_ids ≠ [] /\ ANY_BLOCK_ID ∉ block_ids.
Proof.
  intros Hm. rewrite (constructor_cases _ _ _ Hm). cbn zeta.
  rewrite <- block_restricted_true, <- empty_false.
  destruct (p_dual_restrictable parameters),
    (Std.empty (supplied_ids m (p_boundary parameters))) eqn:Hempty,
    (block_restricted block_ids); cbn.
  all: try (split; intros; [done | reflexivity]).
  all: split; [|intros (? & ? & ?); congruence].
  all: repeat match goal with
         | |- context [if ?b then _ else _] => destruct b
         end; try discriminate.
  all: intros [= Hmsg]; symmetry in Hmsg;
    by apply dual_msg_not_missing in Hmsg.
Qed.

(** C2.  When the reserved name ["ANY_BOUNDARY_ID"] is among the
    supplied boundary names, whatever the other names are, every
    object the constructor yields has the any-boundary singleton as
    its restriction set; and the constructor does yield an object
    unless the dual-restriction check stops it. *)
Theorem C2_any_name_gives_any_set parameters block_ids m names :
  mesh_of parameters = Some m ->
  p_boundary parameters = Some names ->
  "ANY_BOUNDARY_ID" ∈ names ->
  (forall obj, BoundaryRestrictable_dual parameters block_ids = Ok obj ->
               boundaryIDs obj = [ANY_BOUNDARY_ID])
  /\ (p_dual_restrictable parameters = true
       \/ block_ids = [] \/ ANY_BLOCK_ID ∈ block_ids ->
       exists obj, BoundaryRestrictable_dual parameters block_ids = Ok obj
                   /\ boundaryIDs obj = [ANY_BOUNDARY_ID]).
Proof.
  intros Hm Hb Hin. rewrite (constructor_any_name _ _ _ _ Hm Hb Hin).
  split.
  - intros obj. destruct (_ && _); [discriminate|]. by intros [= <-].
  - intros Hpass.
    assert (Hgo : negb (p_dual_restrictable parameters)
                  && block_restricted block_ids = false).
    { apply andb_false_iff. rewrite negb_false_iff, block_restricted_false.
      tauto. }
    rewrite Hgo. by eexists.
Qed.

(** C3.  With an absent boundary parameter, or an empty list of names
    (which the mesh resolves to no id), the constructor yields an
    object whose restriction set is exactly the any-boundary singleton
    and which is not marked boundary restricted.  And whatever the
    parameters, the restriction set of a constructed object is never
    empty. *)
Theorem C3_empty_input_is_any :
  (forall parameters block_ids m,
      mesh_of parameters = Some m ->
      p_boundary parameters = None
      \/ (p_boundary parameters = Some [] /\ getBoundaryIDs m [] true = []) ->
      exists obj,
        BoundaryRestrictable_dual parameters block_ids = Ok obj
        /\ boundaryIDs obj = [ANY_BOUNDARY_ID]
        /\ _boundary_restricted obj = false)
  /\ (forall parameters block_ids obj,
        BoundaryRestrictable_dual parameters block_ids = Ok obj ->
        boundaryIDs obj ≠ []).
Proof.
  split.
  - intros parameters block_ids m Hm Hb.
    apply (supplied_ids_unsupplied m) in Hb.
    rewrite (constructor_unsupplied _ _ _ Hm Hb). by eexists.
  - intros parameters block_ids obj Hok.
    destruct (mesh_of parameters) as [m|] eqn:Hm.
    + by destruct (constructor_ok _ _ _ _ Hm Hok) as (_ & _ & Hne & _).
    + by rewrite (constructor_no_mesh _ _ Hm) in Hok.
Qed.


(** C4 (amended).  Let the supplied names, none of them the reserved
    one, resolve to ids none of which is the any-boundary id.  If some
    resolved id is not among the ids of the mesh, construction stops
    with an error.  When the dual-restriction check passes (the flag is
    set, or the block set is empty or holds the any-block id) the message
    names the object and lists, in ascending order and once each,
    exactly the resolved ids the mesh lacks, that is the difference of
    the restriction set and the mesh's id set; when it does not pass, the
    error is the dual-restriction error, which is raised first.  If
    every resolved id is on the mesh and the dual-restriction check
    passes, this check passes too and the object is built. *)
Theorem C4_missing_ids_reported parameters block_ids m names :
  mesh_of parameters = Some m ->
  Std.is_set (meshBoundaryIds m) ->
  p_boundary parameters = Some names ->
  "ANY_BOUNDARY_ID" ∉ names ->
  ANY_BOUNDARY_ID ∉ getBoundaryIDs m names true ->
  let bnd_ids := Std.insert_range (getBoundaryIDs m names true) [] in
  let missing := filter (fun id => id ∉ meshBoundaryIds m) bnd_ids in
  (forall id, id ∈ missing <->
              id ∈ getBoundaryIDs m names true /\ id ∉ meshBoundaryIds m)
  /\ Std.is_set missing
  /\ ((exists id, id ∈ getBoundaryIDs m names true /\ id ∉ meshBoundaryIds m) ->
      (p_dual_restrictable parameters = true
       \/ block_ids = [] \/ ANY_BLOCK_ID ∈ block_ids ->
       BoundaryRestrictable_dual parameters block_ids
         = mooseError (missing_ids_msg (p_name parameters) missing))
      /\ (p_dual_restrictable parameters = false ->
          block_ids ≠ [] -> ANY_BLOCK_ID ∉ block_ids ->
          BoundaryRestrictable_dual parameters block_ids
            = mooseError (dual_restriction_msg (p_name parameters))))
  /\ ((forall id, id ∈ getBoundaryIDs m names true -> id ∈ meshBoundaryIds m) ->
      p_dual_restrictable parameters = true
      \/ block_ids = [] \/ ANY_BLOCK_ID ∈ block_ids ->
      exists obj,
        BoundaryRestrictable_dual parameters block_ids = Ok obj
        /\ (getBoundaryIDs m names true ≠ [] -> boundaryIDs obj = bnd_ids)).
Proof.
  intros Hm Hvalid Hb Hname Hconcrete bnd_ids missing.
  assert (Hset : Std.is_set bnd_ids)
    by (apply insert_range_is_set; constructor).
  assert (Hmem : forall id, id ∈ bnd_ids <-> id ∈ getBoundaryIDs m names true).
  { intros id. unfold bnd_ids. rewrite elem_of_insert_range, elem_of_nil. tauto. }
  assert (Hdiff : Std.set_difference bnd_ids (meshBoundaryIds m) = missing)
    by (apply set_difference_filter; assumption).
  assert (Hgo : p_dual_restrictable parameters = true
                \/ block_ids = [] \/ ANY_BLOCK_ID ∈ block_ids ->
                negb (p_dual_restrictable parameters)
                && negb (Std.empty bnd_ids)
                && block_restricted block_ids = false).
  { intros Hpass. rewrite <- andb_assoc, andb_comm, <- andb_assoc.
    apply andb_false_iff. right.
    apply andb_false_iff. rewrite negb_false_iff, block_restricted_false.
    tauto. }
  assert (Hsup : supplied_ids m (p_boundary parameters) = bnd_ids)
    by (rewrite Hb; by apply supplied_ids_concrete).
  assert (Hnoany : Std.contains ANY_BOUNDARY_ID bnd_ids = false)
    by (apply contains_false; by rewrite Hmem).
  split; [|split; [|split]].
  - intros id. unfold missing. rewrite list_elem_of_filter, Hmem. tauto.
  - rewrite <- Hdiff. by apply set_difference_is_set.
  - intros (id & Hid & Hlack).
    assert (Hin : id ∈ missing).
    { unfold missing. rewrite list_elem_of_filter, Hmem. tauto. }
    assert (Hne : Std.empty bnd_ids = false).
    { apply empty_false. intros Hnil. apply Hmem in Hid.
      rewrite Hnil in Hid. by apply elem_of_nil in Hid. }
    split.
    + intros Hpass. rewrite (constructor_cases _ _ _ Hm). cbn zeta.
      rewrite Hsup, (Hgo Hpass), Hnoany, Hdiff, Hne.
      destruct missing; [by apply elem_of_nil in Hin | reflexivity].
    + intros Hflag Hblocks Hnoblock.
      rewrite (constructor_cases _ _ _ Hm). cbn zeta.
      rewrite Hsup, Hflag, Hne.
      assert (Hbr : block_restricted block_ids = true)
        by (by apply block_restricted_true).
      by rewrite Hbr.
  - intros Hall Hpass.
    rewrite (constructor_cases _ _ _ Hm). cbn zeta.
    rewrite Hsup, (Hgo Hpass), Hnoany, Hdiff.
    assert (Hnil : missing = []).
    { rewrite <- Hdiff. apply set_difference_nil_iff; [done..|].
      intros id Hid. by apply Hall, Hmem. }
    rewrite Hnil. cbn.
    destruct (Std.empty bnd_ids) eqn:Hempty; eexists; (split; [reflexivity|]).
    + intros Hne. exfalso. apply Hne.
      apply empty_true in Hempty. by apply insert_range_nil_iff.
    + reflexivity.
Qed.

(** *** The membership queries *)

Lemma hasBoundary_any this id :
  ANY_BOUNDARY_ID ∈ _bnd_ids this -> hasBoundary this id = true.
Proof.
  intros Hany. unfold hasBoundary.
  apply contains_true in Hany. rewrite Hany. by rewrite orb_true_r.
Qed.

Lemma hasBoundary_concrete this id :
  _bnd_ids this ≠ [] -> ANY_BOUNDARY_ID ∉ _bnd_ids this ->
  hasBoundary this id = Std.contains id (_bnd_ids this).
Proof.
  intros Hne Hany. unfold hasBoundary.
  apply empty_false in Hne. apply contains_false in Hany.
  by rewrite Hne, Hany.
Qed.

Lemma hasBoundary_any_loop_true this ids :
  hasBoundary_any_loop this ids = true <->
  exists id, id ∈ ids /\ hasBoundary this id = true.
Proof.
  induction ids as [|x ids IH]; cbn.
  - split; [discriminate|]. intros (id & Hid & _). by apply elem_of_nil in Hid.
  - destruct (hasBoundary this x) eqn:Hx.
    + split; [|reflexivity]. intros _. exists x. split; [left|exact Hx].
    + rewrite IH. split; intros (id & Hid & Hhas).
      * exists id. split; [by right | exact Hhas].
      * exists id. split; [|exact Hhas].
        apply elem_of_cons in Hid as [->|Hid]; [congruence | exact Hid].
Qed.

Lemma hasBoundary_set_sentinel_query this ids type :
  ids = [] \/ ANY_BOUNDARY_ID ∈ ids -> hasBoundary_set this ids type = true.
Proof.
  intros Hq. unfold hasBoundary_set.
  assert (Hgo : Std.empty ids || Std.contains ANY_BOUNDARY_ID ids = true).
  { apply orb_true_iff. rewrite empty_true, contains_true. exact Hq. }
  by rewrite Hgo.
Qed.

Lemma hasBoundary_set_plain_query this ids type :
  ids ≠ [] -> ANY_BOUNDARY_ID ∉ ids ->
  hasBoundary_set this ids type =
    match type with
    | ALL =>
        if Std.contains ANY_BOUNDARY_ID (_bnd_ids this) then true
        else Std.includes (_bnd_ids this) ids
    | ANY => hasBoundary_any_loop this ids
    end.
Proof.
  intros Hne Hany. unfold hasBoundary_set.
  apply empty_false in Hne. apply contains_false in Hany.
  by rewrite Hne, Hany.
Qed.

Lemma hasBoundary_set_any_object this ids type :
  ANY_BOUNDARY_ID ∈ _bnd_ids this -> hasBoundary_set this ids type = true.
Proof.
  intros Hany.
  destruct (decide (ids = [] \/ ANY_BOUNDARY_ID ∈ ids)) as [Hq|Hq].
  { by apply hasBoundary_set_sentinel_query. }
  rewrite hasBoundary_set_plain_query by tauto.
  destruct type.
  - apply contains_true in Hany. by rewrite Hany.
  - apply hasBoundary_any_loop_true.
    destruct ids as [|x ids]; [tauto|].
    exists x. split; [left | by apply hasBoundary_any].
Qed.

(** C5 (amended).  The set-valued test answers true whenever the
    any-boundary id is on either side: in the object's restriction
    set, or in the queried set.  The single-id test answers true for
    every id when the object's restriction set holds the any-boundary
    id; it only looks the queried id up, though, so asking a
    concretely restricted object for the any-boundary id itself
    answers false. *)
Theorem C5_sentinel_membership (this : t) :
  (forall id, ANY_BOUNDARY_ID ∈ _bnd_ids this -> hasBoundary this id = true)
  /\ (forall ids type,
        ANY_BOUNDARY_ID ∈ _bnd_ids this -> hasBoundary_set this ids type = true)
  /\ (forall ids type,
        ANY_BOUNDARY_ID ∈ ids -> hasBoundary_set this ids type = true)
  /\ (_bnd_ids this ≠ [] -> ANY_BOUNDARY_ID ∉ _bnd_ids this ->
      hasBoundary this ANY_BOUNDARY_ID = false).
Proof.
  split; [|split; [|split]].
  - intros id. apply hasBoundary_any.
  - intros ids type. apply hasBoundary_set_any_object.
  - intros ids type Hq. apply hasBoundary_set_sentinel_query. by right.
  - intros Hne Hany. rewrite (hasBoundary_concrete _ _ Hne Hany).
    by apply contains_false.
Qed.


Lemma constructor_ok_set parameters block_ids obj :
  BoundaryRestrictable_dual parameters block_ids = Ok obj ->
  Std.is_set (_bnd_ids obj) /\ _bnd_ids obj ≠ []
  /\ exists m, mesh_of parameters = Some m /\ _bnd_mesh obj = Some m.
Proof.
  intros Hok. destruct (mesh_of parameters) as [m|] eqn:Hm.
  - destruct (constructor_ok _ _ _ _ Hm Hok) as (Hmesh & Hset & Hne & _).
    eauto.
  - by rewrite (constructor_no_mesh _ _ Hm) in Hok.
Qed.

(** C6 (amended).  For a constructed object and a queried id set
    that is non-empty and free of the any-boundary id: in ALL mode
    the test answers true exactly when every queried id is in the
    object's restriction set or the object is restricted to any
    boundary; in ANY mode exactly when some queried id is in the
    restriction set or the object is restricted to any boundary.  An
    empty query, or one holding the any-boundary id, answers true in
    either mode. *)
Theorem C6_set_membership_modes parameters block_ids this ids :
  BoundaryRestrictable_dual parameters block_ids = Ok this ->
  Std.is_set ids ->
  (ids = [] \/ ANY_BOUNDARY_ID ∈ ids ->
   forall type, hasBoundary_set this ids type = true)
  /\ (ids ≠ [] -> ANY_BOUNDARY_ID ∉ ids ->
      (hasBoundary_set this ids ALL = true <->
         (forall id, id ∈ ids -> id ∈ boundaryIDs this)
         \/ ANY_BOUNDARY_ID ∈ boundaryIDs this)
      /\ (hasBoundary_set this ids ANY = true <->
            exists id, id ∈ ids
              /\ (id ∈ boundaryIDs this \/ ANY_BOUNDARY_ID ∈ boundaryIDs this))).
Proof.
  intros Hok Hids. unfold boundaryIDs.
  destruct (constructor_ok_set _ _ _ Hok) as (Hset & Hne & _).
  split.
  { intros Hq type. by apply hasBoundary_set_sentinel_query. }
  intros Hnonempty Hplain. split.
  - rewrite hasBoundary_set_plain_query by assumption.
    destruct (Std.contains ANY_BOUNDARY_ID (_bnd_ids this)) eqn:Hany.
    + apply contains_true in Hany. tauto.
    + apply contains_false in Hany.
      rewrite (includes_spec _ _ Hset Hids). tauto.
  - rewrite hasBoundary_set_plain_query by assumption.
    rewrite hasBoundary_any_loop_true.
    split; intros (id & Hid & Hhas); exists id; (split; [exact Hid|]).
    + destruct (decide (ANY_BOUNDARY_ID ∈ _bnd_ids this)) as [|Hany]; [tauto|].
      rewrite (hasBoundary_concrete _ _ Hne Hany) in Hhas.
      apply contains_true in Hhas. tauto.
    + destruct (decide (ANY_BOUNDARY_ID ∈ _bnd_ids this)) as [Hany|Hany].
      * by apply hasBoundary_any.
      * rewrite (hasBoundary_concrete _ _ Hne Hany).
        apply contains_true. tauto.
Qed.

(** C9.  For a constructed object and a queried id set [ids], read
    as the cases of the function in order: an empty [ids], or one
    holding the any-boundary id, answers true; otherwise, when the
    object's restriction set is concrete, the answer is true exactly
    when [ids] holds every id of the restriction set; and when the
    object is restricted to any boundary, the answer is true exactly
    when [ids] holds every boundary id of the mesh (holding the
    sentinel singleton is not what is asked). *)
Theorem C9_isBoundarySubset_cases parameters block_ids m this ids :
  mesh_of parameters = Some m ->
  BoundaryRestrictable_dual parameters block_ids = Ok this ->
  Std.is_set (meshBoundaryIds m) ->
  Std.is_set ids ->
  (ids = [] \/ ANY_BOUNDARY_ID ∈ ids -> isBoundarySubset this ids = Some true)
  /\ (ids ≠ [] -> ANY_BOUNDARY_ID ∉ ids ->
      ANY_BOUNDARY_ID ∉ boundaryIDs this ->
      exists answer,
        isBoundarySubset this ids = Some answer
        /\ (answer = true <-> forall id, id ∈ boundaryIDs this -> id ∈ ids))
  /\ (ids ≠ [] -> ANY_BOUNDARY_ID ∉ ids ->
      ANY_BOUNDARY_ID ∈ boundaryIDs this ->
      exists answer,
        isBoundarySubset this ids = Some answer
        /\ (answer = true <-> forall id, id ∈ meshBoundaryIds m -> id ∈ ids)).
Proof.
  intros Hm Hok Hvalid Hids. unfold boundaryIDs.
  destruct (constructor_ok _ _ _ _ Hm Hok) as (Hmesh & Hset & Hne & _).
  unfold isBoundarySubset. split; [|split].
  - intros Hq.
    assert (Hgo : Std.empty ids || Std.contains ANY_BOUNDARY_ID ids = true).
    { apply orb_true_iff. rewrite empty_true, contains_true. exact Hq. }
    by rewrite Hgo.
  - intros Hnonempty Hplain Hany.
    apply empty_false in Hnonempty. apply contains_false in Hplain.
    apply contains_false in Hany.
    rewrite Hnonempty, Hplain, Hany. cbn.
    eexists. split; [reflexivity|]. by apply includes_spec.
  - intros Hnonempty Hplain Hany.
    apply empty_false in Hnonempty. apply contains_false in Hplain.
    apply contains_true in Hany.
    rewrite Hnonempty, Hplain, Hany, Hmesh. cbn.
    eexists. split; [reflexivity|]. by apply includes_spec.
Qed.

(** C10.  When the supplied name list is non-empty and made of the
    reserved name ["ANY_BOUNDARY_ID"] only, every object the constructor
    yields has the any-boundary singleton as restriction set and is
    marked boundary restricted, and the constructor does yield one
    unless the dual-restriction check stops it.  An absent or empty
    boundary input gives an object with the same restriction set that is
    not marked restricted: the flag tells the two apart. *)
Theorem C10_named_sentinel_is_restricted parameters block_ids m names :
  mesh_of parameters = Some m ->
  p_boundary parameters = Some names ->
  names ≠ [] ->
  Forall (fun name => name = "ANY_BOUNDARY_ID") names ->
  (forall obj,
      BoundaryRestrictable_dual parameters block_ids = Ok obj ->
      boundaryIDs obj = [ANY_BOUNDARY_ID] /\ _boundary_restricted obj = true)
  /\ (p_dual_restrictable parameters = true
      \/ block_ids = [] \/ ANY_BLOCK_ID ∈ block_ids ->
      exists obj, BoundaryRestrictable_dual parameters block_ids = Ok obj)
  /\ (forall parameters' block_ids' m',
        mesh_of parameters' = Some m' ->
        p_boundary parameters' = None
        \/ (p_boundary parameters' = Some []
            /\ getBoundaryIDs m' [] true = []) ->
        exists obj',
          BoundaryRestrictable_dual parameters' block_ids' = Ok obj'
          /\ boundaryIDs obj' = [ANY_BOUNDARY_ID]
          /\ _boundary_restricted obj' = false).
Proof.
  intros Hm Hb Hne Hall.
  assert (Hin : "ANY_BOUNDARY_ID" ∈ names).
  { destruct names as [|name names]; [done|].
    apply Forall_cons in Hall as [-> _]. left. }
  rewrite (constructor_any_name _ _ _ _ Hm Hb Hin).
  split; [|split].
  - intros obj. destruct (_ && _); [discriminate|]. by intros [= <-].
  - intros Hpass.
    assert (Hgo : negb (p_dual_restrictable parameters)
                  && block_restricted block_ids = false).
    { apply andb_false_iff. rewrite negb_false_iff, block_restricted_false.
      tauto. }
    rewrite Hgo. by eexists.
  - intros parameters' block_ids' m' Hm' Hb'.
    apply (supplied_ids_unsupplied m') in Hb'.
    rewrite (constructor_unsupplied _ _ _ Hm' Hb'). by eexists.
Qed.

(** *** The constructors as a whole *)

Lemma string_app_assoc (s1 s2 s3 : string) :
  (s1 +:+ s2) +:+ s3 = s1 +:+ (s2 +:+ s3).
Proof.
  induction s1 as [|c s1 IH]; [reflexivity|].
  change (String c ((s1 +:+ s2) +:+ s3) = String c (s1 +:+ (s2 +:+ s3))).
  by rewrite IH.
Qed.

Lemma foldl_append_prefix (f : BoundaryID -> string) pre s diff :
  exists tail,
    foldl (fun msg id => msg +:+ f id) (pre +:+ s) diff = pre +:+ tail.
Proof.
  revert s. induction diff as [|x diff IH]; intros s; [by eexists|].
  cbn. rewrite string_app_assoc. apply IH.
Qed.

Lemma no_mesh_msg_not_missing name diff :
  no_mesh_msg ≠ missing_ids_msg name diff.
Proof.
  unfold missing_ids_msg.
  destruct (foldl_append_prefix (fun id => " " +:+ pretty id) "The object '"
              (name +:+
               "' contains the following boundary ids that do no exist on the mesh:")
              diff) as [tail Htail].
  intros Heq. pose proof (eq_trans Heq Htail) as Hclash.
  cbv in Hclash. discriminate Hclash.
Qed.

Lemma no_mesh_msg_not_dual name : no_mesh_msg ≠ dual_restriction_msg name.
Proof. intros Heq. discriminate Heq. Qed.

(** X1.  Construction stops with the message asking for a mesh exactly
    when the parameters hold neither a mesh nor an FEProblem. *)
Theorem X1_no_mesh_error parameters block_ids :
  BoundaryRestrictable_dual parameters block_ids = mooseError no_mesh_msg
  <-> p_mesh parameters = None /\ p_fe_problem parameters = None.
Proof.
  destruct (mesh_of parameters) as [m|] eqn:Hm.
  - split.
    + rewrite (constructor_cases _ _ _ Hm). cbn zeta.
      repeat match goal with
        | |- context [if ?b then _ else _] => destruct b
        end; try discriminate.
      all: intros [= Hmsg]; symmetry in Hmsg;
        first [ by apply no_mesh_msg_not_dual in Hmsg
              | by apply no_mesh_msg_not_missing in Hmsg ].
    + intros [Hpm Hfe]. unfold mesh_of in Hm. rewrite Hpm, Hfe in Hm. discriminate.
  - split; [intros _|intros _; by apply constructor_no_mesh].
    unfold mesh_of in Hm.
    destruct (p_mesh parameters); [discriminate|].
    destruct (p_fe_problem parameters); [discriminate|]. done.
Qed.

(** X2.  A constructed object works on the mesh given as [_mesh] when
    there is one, also when an FEProblem with a mesh of its own is given
    beside it; only without [_mesh] it takes the mesh of the FEProblem. *)
Theorem X2_mesh_precedence parameters block_ids obj :
  BoundaryRestrictable_dual parameters block_ids = Ok obj ->
  (forall m, p_mesh parameters = Some m -> _bnd_mesh obj = Some m)
  /\ (p_mesh parameters = None ->
      exists fe, p_fe_problem parameters = Some fe
                 /\ _bnd_mesh obj = Some (mesh fe)).
Proof.
  intros Hok.
  destruct (constructor_ok_set _ _ _ Hok) as (_ & _ & m & Hm & Hmesh).
  unfold mesh_of in Hm. split.
  - intros m' Hpm. rewrite Hpm in Hm. congruence.
  - intros Hpm. rewrite Hpm in Hm.
    destruct (p_fe_problem parameters) as [fe|]; [|discriminate].
    cbn in Hm. exists fe. split; congruence.
Qed.

(** X3.  The constructor yields an object exactly when a mesh is
    available, the dual-restriction check does not fire, and the ids the
    boundary parameter left either include the any-boundary id or all
    exist on the mesh. *)
Theorem X3_construction_succeeds_iff parameters block_ids m :
  mesh_of parameters = Some m ->
  Std.is_set (meshBoundaryIds m) ->
  (exists obj, BoundaryRestrictable_dual parameters block_ids = Ok obj)
  <-> ~ (p_dual_restrictable parameters = false
         /\ supplied_ids m (p_boundary parameters) ≠ []
         /\ block_ids ≠ [] /\ ANY_BLOCK_ID ∉ block_ids)
      /\ (ANY_BOUNDARY_ID ∈ supplied_ids m (p_boundary parameters)
          \/ forall id, id ∈ supplied_ids m (p_boundary parameters) ->
                        id ∈ meshBoundaryIds m).
Proof.
  intros Hm Hvalid.
  pose proof (supplied_ids_is_set m (p_boundary parameters)) as Hset.
  rewrite (constructor_cases _ _ _ Hm). cbn zeta.
  set (ids := supplied_ids m (p_boundary parameters)) in *.
  rewrite <- block_restricted_true, <- empty_false.
  destruct (p_dual_restrictable parameters), (Std.empty ids) eqn:Hempty,
    (block_restricted block_ids); cbn.
  all: try (apply empty_true in Hempty; rewrite Hempty;
            split; [intros _|intros _; by eexists];
            split; [intros (? & ? & ?); congruence|];
            right; intros id Hid; by apply elem_of_nil in Hid).
  all: try (split; [intros [? [=]] | intros [Hno _]; exfalso; by apply Hno]).
  all: destruct (Std.contains ANY_BOUNDARY_ID ids) eqn:Hany;
    [ apply contains_true in Hany; split; [intros _|intros _; by eexists];
      (split; [intros (? & ? & ?); congruence | by left])
    | apply contains_false in Hany ].
  all: destruct (Std.empty (Std.set_difference ids (meshBoundaryIds m))) eqn:Hdiff;
    [ apply empty_true in Hdiff;
      pose proof (proj1 (set_difference_nil_iff _ _ Hset Hvalid) Hdiff);
      split; [intros _|intros _; by eexists];
      (split; [intros (? & ? & ?); congruence | by right])
    | apply empty_false in Hdiff;
      split; [intros [? [=]]|];
      intros [_ [?|Hall]]; [done|];
      exfalso; apply Hdiff;
      exact (proj2 (set_difference_nil_iff _ _ Hset Hvalid) Hall) ].
Qed.

(** The two shapes of a constructed object. *)
Lemma constructor_ok_shape parameters block_ids m obj :
  mesh_of parameters = Some m ->
  BoundaryRestrictable_dual parameters block_ids = Ok obj ->
  let ids := supplied_ids m (p_boundary parameters) in
  (ids = []
   /\ obj = initialized parameters block_ids m
              [ANY_BOUNDARY_ID] ["ANY_BOUNDARY_ID"] false)
  \/ (ids ≠ []
      /\ (p_dual_restrictable parameters = true
          \/ block_restricted block_ids = false)
      /\ (ANY_BOUNDARY_ID ∈ ids
          \/ Std.set_difference ids (meshBoundaryIds m) = [])
      /\ obj = initialized parameters block_ids m ids
                 (default [] (p_boundary parameters)) true).
Proof.
  intros Hm. rewrite (constructor_cases _ _ _ Hm). cbn zeta.
  destruct (Std.empty _) eqn:Hempty.
  - apply empty_true in Hempty. rewrite andb_false_r. cbn.
    intros [= <-]. by left.
  - apply empty_false in Hempty. rewrite andb_true_r.
    destruct (negb _ && _) eqn:Hgo; [discriminate|].
    apply andb_false_iff in Hgo. rewrite negb_false_iff in Hgo.
    destruct (Std.contains _ _) eqn:Hany.
    + apply contains_true in Hany. intros [= <-]. right. tauto.
    + destruct (Std.empty (Std.set_difference _ _)) eqn:Hdiff; [|discriminate].
      apply empty_true in Hdiff. intros [= <-]. right. tauto.
Qed.

(** X4.  A constructed object is never restricted both to boundaries
    and to blocks unless it was declared dual restrictable: if it is
    marked boundary restricted, then its dual-restriction flag is set, or
    its block set is empty or holds the any-block id.  The flag and the
    block set are those it was constructed with. *)
Theorem X4_restrictions_exclusive parameters block_ids obj :
  BoundaryRestrictable_dual parameters block_ids = Ok obj ->
  _block_ids obj = block_ids
  /\ _bnd_dual_restrictable obj = p_dual_restrictable parameters
  /\ (_boundary_restricted obj = true ->
      _bnd_dual_restrictable obj = true
      \/ _block_ids obj = [] \/ ANY_BLOCK_ID ∈ _block_ids obj).
Proof.
  intros Hok.
  destruct (constructor_ok_set _ _ _ Hok) as (_ & _ & m & Hm & _).
  destruct (constructor_ok_shape _ _ _ _ Hm Hok)
    as [[_ ->]|(_ & Hpass & _ & ->)]; cbn.
  - repeat split. discriminate.
  - repeat split. intros _.
    rewrite block_restricted_false in Hpass. tauto.
Qed.

(** X5.  The concrete ids of a constructed object all exist on its
    mesh, so asking any constructed object whether the whole boundary id
    set of the mesh covers its restriction is answered with true. *)
Theorem X5_ids_exist_on_mesh parameters block_ids m obj :
  mesh_of parameters = Some m ->
  Std.is_set (meshBoundaryIds m) ->
  BoundaryRestrictable_dual parameters block_ids = Ok obj ->
  (ANY_BOUNDARY_ID ∉ boundaryIDs obj ->
   forall id, id ∈ boundaryIDs obj -> id ∈ meshBoundaryIds m)
  /\ isBoundarySubset obj (meshBoundaryIds m) = Some true.
Proof.
  intros Hm Hvalid Hok. unfold boundaryIDs.
  pose proof (supplied_ids_is_set m (p_boundary parameters)) as Hset.
  assert (Hon : ANY_BOUNDARY_ID ∉ _bnd_ids obj ->
                forall id, id ∈ _bnd_ids obj -> id ∈ meshBoundaryIds m).
  { destruct (constructor_ok_shape _ _ _ _ Hm Hok)
      as [[_ ->]|(_ & _ & Hids & ->)]; cbn.
    - intros Hany. exfalso. apply Hany. left.
    - intros Hany. destruct Hids as [?|Hdiff]; [done|].
      exact (proj1 (set_difference_nil_iff _ _ Hset Hvalid) Hdiff). }
  split; [exact Hon|].
  destruct (constructor_ok _ _ _ _ Hm Hok) as (Hmesh & Hbnd & _).
  unfold isBoundarySubset.
  destruct (Std.empty _ || Std.contains _ _); [reflexivity|].
  destruct (Std.contains ANY_BOUNDARY_ID (_bnd_ids obj)) eqn:Hany.
  - rewrite Hmesh. cbn. f_equal. by apply includes_spec.
  - apply contains_false in Hany. f_equal. apply includes_spec; auto.
Qed.

(** X6.  A constructed object is marked boundary restricted exactly
    when the boundary parameter left it some id.  If it is not marked,
    [boundaryNames] is the one reserved name and [boundaryIDs] the
    any-boundary singleton; if it is marked, [boundaryNames] gives back
    the supplied names as they were written, in their order and with
    their repetitions. *)
Theorem X6_names_and_flag parameters block_ids m obj :
  mesh_of parameters = Some m ->
  BoundaryRestrictable_dual parameters block_ids = Ok obj ->
  (_boundary_restricted obj = true <->
     supplied_ids m (p_boundary parameters) ≠ [])
  /\ (_boundary_restricted obj = false ->
      boundaryNames obj = ["ANY_BOUNDARY_ID"]
      /\ boundaryIDs obj = [ANY_BOUNDARY_ID])
  /\ (_boundary_restricted obj = true ->
      p_boundary parameters = Some (boundaryNames obj)
      /\ boundaryIDs obj = supplied_ids m (p_boundary parameters)).
Proof.
  intros Hm Hok.
  destruct (constructor_ok_shape _ _ _ _ Hm Hok)
    as [[Hnil ->]|(Hne & _ & _ & ->)]; cbn.
  - rewrite Hnil. repeat split; try done.
  - repeat split; try done.
    destruct (p_boundary parameters) as [names|]; [reflexivity|].
    by cbn in Hne.
Qed.

(** X7.  [numBoundaryIDs] of a constructed object is at least one; it is
    one when the boundary parameter is absent or names the reserved
    name; and for other names it is at most the number of ids they
    resolve to (ids resolved more than once count once). *)
Theorem X7_numBoundaryIDs_bounds parameters block_ids m obj :
  mesh_of parameters = Some m ->
  BoundaryRestrictable_dual parameters block_ids = Ok obj ->
  (1 <= numBoundaryIDs obj)%nat
  /\ (p_boundary parameters = None -> numBoundaryIDs obj = 1%nat)
  /\ (forall names,
        p_boundary parameters = Some names ->
        "ANY_BOUNDARY_ID" ∈ names -> numBoundaryIDs obj = 1%nat)
  /\ (forall names,
        p_boundary parameters = Some names ->
        "ANY_BOUNDARY_ID" ∉ names ->
        (numBoundaryIDs obj
           <= Nat.max 1 (length (getBoundaryIDs m names true)))%nat).
Proof.
  intros Hm Hok. unfold numBoundaryIDs.
  destruct (constructor_ok_shape _ _ _ _ Hm Hok)
    as [[Hnil ->]|(Hne & _ & _ & ->)]; cbn.
  - repeat split; try done. intros; lia.
  - split; [|split; [|split]].
    + destruct (supplied_ids _ _); [done | cbn; lia].
    + intros Hb. by rewrite Hb in Hne.
    + intros names Hb Hin. by rewrite Hb, (supplied_ids_any _ _ Hin).
    + intros names Hb Hin. rewrite Hb, (supplied_ids_concrete _ _ Hin).
      pose proof (length_insert_range_le (getBoundaryIDs m names true) []).
      cbn in *. lia.
Qed.

(** *** The queries on vectors, names and their relations *)

Lemma hasBoundary_elem this id :
  id ∈ _bnd_ids this -> hasBoundary this id = true.
Proof.
  intros Hid. unfold hasBoundary.
  destruct (_ || _); [reflexivity|]. by apply contains_true.
Qed.

Lemma hasBoundary_true_iff this id :
  _bnd_ids this ≠ [] ->
  hasBoundary this id = true <->
  ANY_BOUNDARY_ID ∈ _bnd_ids this \/ id ∈ _bnd_ids this.
Proof.
  intros Hne.
  destruct (decide (ANY_BOUNDARY_ID ∈ _bnd_ids this)) as [Hany|Hany].
  - rewrite (hasBoundary_any _ _ Hany). tauto.
  - rewrite (hasBoundary_concrete _ _ Hne Hany), contains_true. tauto.
Qed.

(** The test on sets, for a constructed object, in one equivalence per
    mode. *)
Lemma hasBoundary_set_true_iff parameters block_ids this ids type :
  BoundaryRestrictable_dual parameters block_ids = Ok this ->
  Std.is_set ids ->
  hasBoundary_set this ids type = true <->
  ids = [] \/ ANY_BOUNDARY_ID ∈ ids \/ ANY_BOUNDARY_ID ∈ _bnd_ids this
  \/ match type with
     | ALL => forall id, id ∈ ids -> id ∈ _bnd_ids this
     | ANY => exists id, id ∈ ids /\ id ∈ _bnd_ids this
     end.
Proof.
  intros Hok Hids.
  destruct (constructor_ok_set _ _ _ Hok) as (Hset & Hne & _).
  destruct (decide (ids = [] \/ ANY_BOUNDARY_ID ∈ ids)) as [Hq|Hq].
  { rewrite (hasBoundary_set_sentinel_query _ _ _ Hq). tauto. }
  destruct (decide (ANY_BOUNDARY_ID ∈ _bnd_ids this)) as [Hany|Hany].
  { rewrite (hasBoundary_set_any_object _ _ _ Hany). tauto. }
  rewrite hasBoundary_set_plain_query by tauto.
  destruct type.
  - apply contains_false in Hany as Hc. rewrite Hc.
    rewrite (includes_spec _ _ Hset Hids). tauto.
  - rewrite hasBoundary_any_loop_true. split.
    + intros (id & Hid & Hhas). apply (hasBoundary_true_iff _ _ Hne) in Hhas.
      right; right; right. exists id. tauto.
    + intros [?|[?|[?|(id & Hid & Hin)]]]; try tauto.
      exists id. split; [done|]. by apply hasBoundary_elem.
Qed.

(** X8.  The test on an id vector, for a constructed object, looks at
    the ids the vector holds and at nothing else: in ALL mode it answers
    true exactly when the vector holds the any-boundary id, or the object
    is restricted to any boundary, or every id of the vector is in the
    restriction set (an empty vector included); in ANY mode exactly when
    the vector is empty or holds the any-boundary id, or the object is
    restricted to any boundary, or some id of the vector is in the
    restriction set.  Two vectors with the same ids, in whatever order
    and number, get the same answer. *)
Theorem X8_hasBoundary_vector parameters block_ids this :
  BoundaryRestrictable_dual parameters block_ids = Ok this ->
  (forall ids,
      hasBoundary_vector this ids ALL = true <->
      ANY_BOUNDARY_ID ∈ ids \/ ANY_BOUNDARY_ID ∈ boundaryIDs this
      \/ forall id, id ∈ ids -> id ∈ boundaryIDs this)
  /\ (forall ids,
        hasBoundary_vector this ids ANY = true <->
        ids = [] \/ ANY_BOUNDARY_ID ∈ ids \/ ANY_BOUNDARY_ID ∈ boundaryIDs this
        \/ exists id, id ∈ ids /\ id ∈ boundaryIDs this)
  /\ (forall ids ids' type,
        (forall id, id ∈ ids <-> id ∈ ids') ->
        hasBoundary_vector this ids type = hasBoundary_vector this ids' type).
Proof.
  intros Hok. unfold boundaryIDs, hasBoundary_vector.
  assert (Hmem : forall ids id, id ∈ Std.insert_range ids [] <-> id ∈ ids).
  { intros ids id. rewrite elem_of_insert_range, elem_of_nil. tauto. }
  assert (Hs : forall ids, Std.is_set (Std.insert_range ids []))
    by (intros; apply insert_range_is_set; constructor).
  split; [|split].
  - intros ids. rewrite (hasBoundary_set_true_iff _ _ _ _ _ Hok (Hs ids)).
    rewrite insert_range_nil_iff, Hmem. split.
    + intros [->|[?|[?|Hall]]]; try tauto.
      * right; right. intros id Hid. by apply elem_of_nil in Hid.
      * right; right. intros id Hid. by apply Hall, Hmem.
    + intros [?|[?|Hall]]; try tauto.
      right; right; right. intros id Hid. by apply Hall, Hmem.
  - intros ids. rewrite (hasBoundary_set_true_iff _ _ _ _ _ Hok (Hs ids)).
    rewrite insert_range_nil_iff, Hmem. split.
    + intros [?|[?|[?|(id & Hid & Hin)]]]; try tauto.
      right; right; right. exists id. split; [by apply Hmem | done].
    + intros [?|[?|[?|(id & Hid & Hin)]]]; try tauto.
      right; right; right. exists id. split; [by apply Hmem | done].
  - intros ids ids' type Hext. by rewrite (insert_range_ext _ _ Hext).
Qed.

(** X9.  [isBoundarySubset] on an id vector, for a constructed object,
    always has an answer, and the answer is true exactly when the vector
    is empty or holds the any-boundary id, or holds every id of the
    concrete restriction set, or, for an object restricted to any
    boundary, holds every boundary id of the mesh; the order and the
    repetitions in the vector do not matter. *)
Theorem X9_isBoundarySubset_vector parameters block_ids m this ids :
  mesh_of parameters = Some m ->
  Std.is_set (meshBoundaryIds m) ->
  BoundaryRestrictable_dual parameters block_ids = Ok this ->
  exists answer,
    isBoundarySubset_vector this ids = Some answer
    /\ (answer = true <->
         ids = [] \/ ANY_BOUNDARY_ID ∈ ids
         \/ (ANY_BOUNDARY_ID ∈ boundaryIDs this
             /\ forall id, id ∈ meshBoundaryIds m -> id ∈ ids)
         \/ ((ANY_BOUNDARY_ID ∉ boundaryIDs this)
             /\ forall id, id ∈ boundaryIDs this -> id ∈ ids)).
Proof.
  intros Hm Hvalid Hok. unfold boundaryIDs, isBoundarySubset_vector.
  destruct (constructor_ok _ _ _ _ Hm Hok) as (Hmesh & Hset & _).
  assert (Hmem : forall id, id ∈ Std.insert_range ids [] <-> id ∈ ids).
  { intros id. rewrite elem_of_insert_range, elem_of_nil. tauto. }
  assert (Hs : Std.is_set (Std.insert_range ids []))
    by (apply insert_range_is_set; constructor).
  unfold isBoundarySubset.
  destruct (Std.empty _) eqn:Hempty; cbn.
  { apply empty_true in Hempty. rewrite insert_range_nil_iff in Hempty.
    eexists. split; [reflexivity|]. split; [tauto | reflexivity]. }
  apply empty_false in Hempty. rewrite insert_range_nil_iff in Hempty.
  destruct (Std.contains ANY_BOUNDARY_ID (Std.insert_range ids [])) eqn:Hq.
  { apply contains_true in Hq. rewrite Hmem in Hq.
    eexists. split; [reflexivity|]. split; [tauto | reflexivity]. }
  apply contains_false in Hq. rewrite Hmem in Hq.
  destruct (Std.contains ANY_BOUNDARY_ID (_bnd_ids this)) eqn:Hany.
  - apply contains_true in Hany. rewrite Hmesh. cbn.
    eexists. split; [reflexivity|].
    rewrite (includes_spec _ _ Hs Hvalid). setoid_rewrite Hmem. tauto.
  - apply contains_false in Hany.
    eexists. split; [reflexivity|].
    rewrite (includes_spec _ _ Hs Hset). setoid_rewrite Hmem. tauto.
Qed.

(** X10.  Whatever the object and the queried set, a query answered
    true in ALL mode is answered true in ANY mode. *)
Theorem X10_all_implies_any this ids :
  hasBoundary_set this ids ALL = true -> hasBoundary_set this ids ANY = true.
Proof.
  unfold hasBoundary_set.
  destruct (Std.empty ids || Std.contains ANY_BOUNDARY_ID ids) eqn:Hq;
    [reflexivity|].
  apply orb_false_iff in Hq as [Hne _]. apply empty_false in Hne.
  destruct ids as [|id ids]; [done|].
  intros Hall. apply hasBoundary_any_loop_true.
  exists id. split; [left|].
  destruct (Std.contains ANY_BOUNDARY_ID (_bnd_ids this)) eqn:Hany.
  - apply hasBoundary_any. by apply contains_true.
  - apply hasBoundary_elem. apply (includes_sound _ _ Hall). left.
Qed.

Lemma hasBoundary_set_singleton parameters block_ids this id type :
  BoundaryRestrictable_dual parameters block_ids = Ok this ->
  id ≠ ANY_BOUNDARY_ID ->
  hasBoundary_set this [id] type = hasBoundary this id.
Proof.
  intros Hok Hid.
  destruct (constructor_ok_set _ _ _ Hok) as (_ & Hne & _).
  assert (Hs : Std.is_set [id]) by (apply is_set_cons; split; constructor).
  apply eq_true_iff_eq.
  rewrite (hasBoundary_set_true_iff _ _ _ _ _ Hok Hs).
  rewrite (hasBoundary_true_iff _ _ Hne), list_elem_of_singleton.
  split.
  - intros [?|[?|[?|Hin]]]; [done | congruence | tauto |].
    destruct type.
    + right. apply Hin. left.
    + destruct Hin as (x & ->%list_elem_of_singleton & Hx). tauto.
  - intros [?|Hin]; [tauto|]. right; right; right.
    destruct type.
    + by intros x ->%list_elem_of_singleton.
    + exists id. split; [left | done].
Qed.

(** X11.  For a constructed object and an id other than the any-boundary
    id, the test on the set holding just that id agrees, in both modes,
    with the test on the id. *)
Theorem X11_singleton_query parameters block_ids this id type :
  BoundaryRestrictable_dual parameters block_ids = Ok this ->
  id ≠ ANY_BOUNDARY_ID ->
  hasBoundary_set this [id] type = hasBoundary this id.
Proof.
  intros Hok Hid. by apply (hasBoundary_set_singleton parameters block_ids).
Qed.

Lemma isBoundarySubset_true_iff parameters block_ids m this ids :
  mesh_of parameters = Some m ->
  Std.is_set (meshBoundaryIds m) ->
  BoundaryRestrictable_dual parameters block_ids = Ok this ->
  Std.is_set ids ->
  isBoundarySubset this ids = Some true <->
  ids = [] \/ ANY_BOUNDARY_ID ∈ ids
  \/ (ANY_BOUNDARY_ID ∈ _bnd_ids this
      /\ forall id, id ∈ meshBoundaryIds m -> id ∈ ids)
  \/ ((ANY_BOUNDARY_ID ∉ _bnd_ids this)
      /\ forall id, id ∈ _bnd_ids this -> id ∈ ids).
Proof.
  intros Hm Hvalid Hok Hids.
  destruct (constructor_ok _ _ _ _ Hm Hok) as (Hmesh & Hset & _).
  unfold isBoundarySubset.
  destruct (Std.empty ids) eqn:Hempty; cbn.
  { apply empty_true in Hempty. split; [tauto | reflexivity]. }
  apply empty_false in Hempty.
  destruct (Std.contains ANY_BOUNDARY_ID ids) eqn:Hq.
  { apply contains_true in Hq. split; [tauto | reflexivity]. }
  apply contains_false in Hq.
  destruct (Std.contains ANY_BOUNDARY_ID (_bnd_ids this)) eqn:Hany.
  - apply contains_true in Hany. rewrite Hmesh. cbn.
    rewrite <- (includes_spec _ _ Hids Hvalid).
    split; [intros [= ->]; tauto|].
    intros [?|[?|[[_ ->]|[? _]]]]; done.
  - apply contains_false in Hany.
    rewrite <- (includes_spec _ _ Hids Hset).
    split; [intros [= ->]; tauto|].
    intros [?|[?|[[? _]|[_ ->]]]]; done.
Qed.

(** X12.  For a constructed object with a concrete restriction set and a
    queried set that is non-empty and free of the any-boundary id: the
    ALL-mode test and the subset test both answer true exactly when the
    queried set is the restriction set itself. *)
Theorem X12_both_tests_pin_the_set parameters block_ids m this ids :
  mesh_of parameters = Some m ->
  Std.is_set (meshBoundaryIds m) ->
  BoundaryRestrictable_dual parameters block_ids = Ok this ->
  Std.is_set ids ->
  ids ≠ [] ->
  ANY_BOUNDARY_ID ∉ ids ->
  ANY_BOUNDARY_ID ∉ boundaryIDs this ->
  hasBoundary_set this ids ALL = true /\ isBoundarySubset this ids = Some true
  <-> ids = boundaryIDs this.
Proof.
  intros Hm Hvalid Hok Hids Hne Hq Hany. unfold boundaryIDs in *.
  destruct (constructor_ok _ _ _ _ Hm Hok) as (_ & Hset & _).
  rewrite (hasBoundary_set_true_iff _ _ _ _ ALL Hok Hids).
  rewrite (isBoundarySubset_true_iff _ _ _ _ _ Hm Hvalid Hok Hids).
  split.
  - intros [[?|[?|[?|Hsub]]] [?|[?|[[? _]|[_ Hsup]]]]]; try done.
    apply is_set_ext; [done..|]. intros id. split; auto.
  - intros Heq. split; right; right; right.
    + intros id. by rewrite Heq.
    + split; [done|]. intros id. by rewrite Heq.
Qed.

(** X13.  For a constructed object: a queried set that passes the
    subset test, is non-empty and free of the any-boundary id, still
    passes when ids are added to it; and a queried set free of the
    any-boundary id that passes the ALL-mode test still passes when ids
    are taken away from it. *)
Theorem X13_tests_are_monotone parameters block_ids m this ids ids' :
  mesh_of parameters = Some m ->
  Std.is_set (meshBoundaryIds m) ->
  BoundaryRestrictable_dual parameters block_ids = Ok this ->
  Std.is_set ids ->
  Std.is_set ids' ->
  (forall id, id ∈ ids -> id ∈ ids') ->
  (ids ≠ [] -> ANY_BOUNDARY_ID ∉ ids ->
   isBoundarySubset this ids = Some true ->
   isBoundarySubset this ids' = Some true)
  /\ (ANY_BOUNDARY_ID ∉ ids' ->
      hasBoundary_set this ids' ALL = true ->
      hasBoundary_set this ids ALL = true).
Proof.
  intros Hm Hvalid Hok Hids Hids' Hsub. split.
  - intros Hne Hq.
    rewrite !(isBoundarySubset_true_iff _ _ _ _ _ Hm Hvalid Hok) by done.
    intros [?|[?|[[? Hall]|[? Hall]]]]; try done.
    + right; right; left. split; [done|]. auto.
    + right; right; right. split; [done|]. auto.
  - intros Hq.
    rewrite !(hasBoundary_set_true_iff _ _ _ _ ALL Hok) by done.
    intros [->|[?|[?|Hall]]]; try done; [|tauto|].
    + left. destruct ids as [|id ids]; [done|].
      exfalso. apply (not_elem_of_nil id), Hsub. left.
    + right; right; right. auto.
Qed.

(** X14.  The tests on names resolve the names through the mesh of the
    object and know nothing else about names.  For a constructed object
    restricted to any boundary they answer true for every name and every
    list of names; and a name that the mesh resolves to one id other than
    the any-boundary id is answered as that id is, whatever the defaults
    of the declarations are. *)
Theorem X14_tests_on_names parameters block_ids m this :
  mesh_of parameters = Some m ->
  BoundaryRestrictable_dual parameters block_ids = Ok this ->
  (ANY_BOUNDARY_ID ∈ boundaryIDs this ->
   forall generate_unknown type names,
     hasBoundary_names generate_unknown type this names = Some true)
  /\ (forall generate_unknown type name id,
        getBoundaryIDs m [name] generate_unknown = [id] ->
        id ≠ ANY_BOUNDARY_ID ->
        hasBoundary_name generate_unknown type this name
        = Some (hasBoundary this id)).
Proof.
  intros Hm Hok. unfold boundaryIDs.
  destruct (constructor_ok _ _ _ _ Hm Hok) as (Hmesh & _).
  unfold hasBoundary_names, hasBoundary_name. rewrite Hmesh. cbn.
  split.
  - intros Hany generate_unknown type names. f_equal.
    unfold hasBoundary_vector. by apply hasBoundary_set_any_object.
  - intros generate_unknown type name id Hres Hid. rewrite Hres. f_equal.
    unfold hasBoundary_vector. cbn.
    by apply (hasBoundary_set_singleton parameters block_ids).
Qed.

End WithIds.

(** *** The statements at work on the sample mesh *)

Section OnSample.
#[local] Existing Instance Sample.ids.

(** The example of the specification: ["left"] and ["right"] resolve to
    2 and 4 on a mesh with boundaries 1 to 4. *)
Example left_right_on_sample :
  exists obj,
    BoundaryRestrictable (Sample.parameters (Some ["left"; "right"])) = Ok obj
    /\ boundaryIDs obj = [2; 4]
    /\ hasBoundary obj 2 = true
    /\ hasBoundary obj 9 = false
    /\ isBoundarySubset obj [1; 2; 3; 4] = Some true.
Proof. eexists. split; [reflexivity|]. repeat split. Qed.

(** Restricted to ["left"] while already restricted to block 1. *)
Lemma C1_dual_restriction_error_witness :
  mesh_of (Sample.parameters (Some ["left"])) = Some Sample.mesh
  /\ BoundaryRestrictable_dual (Sample.parameters (Some ["left"])) [1]
       = mooseError
           "Attempted to restrict the object 'bc' to a boundary, but the object is already restricted by block(s)".
Proof.
  split; [reflexivity|].
  apply (C1_dual_restriction_error
           (Sample.parameters (Some ["left"])) [1] Sample.mesh);
    [reflexivity|].
  repeat split; [vm_compute; discriminate | discriminate |].
  apply (bool_decide_unpack _). vm_compute. exact I.
Defined.

(** Naming the sentinel does not avoid the dual-restriction error:
    the error is raised although the boundary set is "any". *)
Lemma C1_counterexample :
  supplied_ids Sample.mesh (Some ["ANY_BOUNDARY_ID"]) = [ANY_BOUNDARY_ID]
  /\ BoundaryRestrictable_dual (Sample.parameters (Some ["ANY_BOUNDARY_ID"])) [1]
       = mooseError (dual_restriction_msg "bc").
Proof. split; reflexivity. Qed.

Lemma C2_any_name_gives_any_set_witness :
  exists obj,
    BoundaryRestrictable_dual
      (Sample.parameters (Some ["left"; "ANY_BOUNDARY_ID"; "top"])) [] = Ok obj
    /\ boundaryIDs obj = [ANY_BOUNDARY_ID].
Proof.
  apply (C2_any_name_gives_any_set
           (Sample.parameters (Some ["left"; "ANY_BOUNDARY_ID"; "top"])) []
           Sample.mesh ["left"; "ANY_BOUNDARY_ID"; "top"]);
    [reflexivity | reflexivity | | by right; left].
  apply (bool_decide_unpack _). vm_compute. exact I.
Defined.

Lemma C3_empty_input_is_any_witness :
  exists obj,
    BoundaryRestrictable_dual (Sample.parameters None) [1; 2] = Ok obj
    /\ boundaryIDs obj = [ANY_BOUNDARY_ID]
    /\ _boundary_restricted obj = false.
Proof.
  apply (proj1 C3_empty_input_is_any (Sample.parameters None) [1; 2] Sample.mesh);
    [reflexivity | by left].
Defined.

(** ["bottom"] and ["top"] resolve to 7 and 9, which the mesh lacks. *)
Lemma C4_missing_ids_reported_witness :
  BoundaryRestrictable_dual
    (Sample.parameters (Some ["right"; "top"; "bottom"; "left"])) []
  = mooseError
      "The object 'bc' contains the following boundary ids that do no exist on the mesh: 7 9".
Proof.
  refine (eq_trans
    (proj1 (proj1 (proj2 (proj2
      (C4_missing_ids_reported
         (Sample.parameters (Some ["right"; "top"; "bottom"; "left"])) []
         Sample.mesh ["right"; "top"; "bottom"; "left"]
         eq_refl _ eq_refl _ _))) _) _) _).
  - apply (bool_decide_unpack _). vm_compute. exact I.
  - apply (bool_decide_unpack _). vm_compute. exact I.
  - apply (bool_decide_unpack _). vm_compute. exact I.
  - exists 9. split; apply (bool_decide_unpack _); vm_compute; exact I.
  - by right; left.
  - vm_compute. reflexivity.
Defined.

(** ["top"] resolves to 9, which the mesh lacks, on an object already
    restricted to block 1: the error raised is the dual-restriction
    error, and no id is listed. *)
Lemma C4_counterexample :
  getBoundaryIDs Sample.mesh ["top"] true = [9]
  /\ (9 ∉ meshBoundaryIds Sample.mesh)
  /\ BoundaryRestrictable_dual (Sample.parameters (Some ["top"])) [1]
     = mooseError (dual_restriction_msg "bc")
  /\ BoundaryRestrictable_dual (Sample.parameters (Some ["top"])) [1]
     ≠ mooseError (missing_ids_msg "bc" [9]).
Proof.
  split; [reflexivity|]. split.
  { apply (bool_decide_unpack _). vm_compute. exact I. }
  split; [reflexivity|]. vm_compute. discriminate.
Qed.

(** The object restricted to boundaries 2 and 4. *)
Lemma C5_sentinel_membership_witness :
  let this :=
    initialized (Sample.parameters (Some ["left"; "right"])) []
      Sample.mesh [2; 4] ["left"; "right"] true in
  hasBoundary this ANY_BOUNDARY_ID = false
  /\ hasBoundary_set this [ANY_BOUNDARY_ID; 9] ALL = true.
Proof.
  intros this.
  destruct (C5_sentinel_membership this) as (_ & _ & Hquery & Hsingle).
  split.
  - apply Hsingle; [discriminate|].
    apply (bool_decide_unpack _). vm_compute. exact I.
  - apply Hquery. left.
Defined.

(** The single-id test does not honour the sentinel on the query side. *)
Lemma C5_counterexample :
  let this :=
    initialized (Sample.parameters (Some ["left"; "right"])) []
      Sample.mesh [2; 4] ["left"; "right"] true in
  BoundaryRestrictable (Sample.parameters (Some ["left"; "right"])) = Ok this
  /\ hasBoundary this ANY_BOUNDARY_ID ≠ true.
Proof. split; [reflexivity | vm_compute; discriminate]. Qed.

Lemma C6_set_membership_modes_witness :
  let this :=
    initialized (Sample.parameters (Some ["left"; "right"])) []
      Sample.mesh [2; 4] ["left"; "right"] true in
  (hasBoundary_set this [2; 9] ALL = true <->
     (forall id, id ∈ [2; 9] -> id ∈ boundaryIDs this)
     \/ ANY_BOUNDARY_ID ∈ boundaryIDs this)
  /\ (hasBoundary_set this [2; 9] ANY = true <->
        exists id, id ∈ [2; 9]
          /\ (id ∈ boundaryIDs this \/ ANY_BOUNDARY_ID ∈ boundaryIDs this)).
Proof.
  intros this.
  refine (proj2 (C6_set_membership_modes
            (Sample.parameters (Some ["left"; "right"])) [] this [2; 9]
            eq_refl _) _ _).
  - apply (bool_decide_unpack _). vm_compute. exact I.
  - discriminate.
  - apply (bool_decide_unpack _). vm_compute. exact I.
Defined.

(** An empty query in ANY mode answers true although no queried id
    matches, and a query holding the sentinel answers true in ALL
    mode although id 9 is not in the restriction set. *)
Lemma C6_counterexample :
  let this :=
    initialized (Sample.parameters (Some ["left"; "right"])) []
      Sample.mesh [2; 4] ["left"; "right"] true in
  BoundaryRestrictable (Sample.parameters (Some ["left"; "right"])) = Ok this
  /\ (hasBoundary_set this [] ANY = true
      /\ ~ exists id, id ∈ [] /\ (id ∈ boundaryIDs this
                                  \/ ANY_BOUNDARY_ID ∈ boundaryIDs this))
  /\ (hasBoundary_set this [ANY_BOUNDARY_ID; 9] ALL = true
      /\ ~ ((forall id, id ∈ [ANY_BOUNDARY_ID; 9] -> id ∈ boundaryIDs this)
            \/ ANY_BOUNDARY_ID ∈ boundaryIDs this)).
Proof.
  intros this. split; [reflexivity|]. split; (split; [reflexivity|]).
  - intros (id & Hid & _). by apply elem_of_nil in Hid.
  - unfold this; cbn. intros [Hall|Hany].
    + specialize (Hall 9). rewrite !elem_of_cons, elem_of_nil in Hall. lia.
    + rewrite !elem_of_cons, elem_of_nil in Hany. lia.
Qed.

Lemma C9_isBoundarySubset_cases_witness :
  let this :=
    initialized (Sample.parameters (Some ["left"; "right"])) []
      Sample.mesh [2; 4] ["left"; "right"] true in
  exists answer,
    isBoundarySubset this [1; 2; 3; 4] = Some answer
    /\ (answer = true <-> forall id, id ∈ boundaryIDs this -> id ∈ [1; 2; 3; 4]).
Proof.
  intros this.
  refine (proj1 (proj2 (C9_isBoundarySubset_cases
            (Sample.parameters (Some ["left"; "right"])) [] Sample.mesh
            this [1; 2; 3; 4] eq_refl eq_refl _ _)) _ _ _).
  - apply (bool_decide_unpack _). vm_compute. exact I.
  - apply (bool_decide_unpack _). vm_compute. exact I.
  - discriminate.
  - apply (bool_decide_unpack _). vm_compute. exact I.
  - apply (bool_decide_unpack _). vm_compute. exact I.
Defined.

Lemma C10_named_sentinel_is_restricted_witness :
  exists obj obj',
    BoundaryRestrictable_dual
      (Sample.parameters (Some ["ANY_BOUNDARY_ID"])) [] = Ok obj
    /\ boundaryIDs obj = [ANY_BOUNDARY_ID]
    /\ _boundary_restricted obj = true
    /\ BoundaryRestrictable_dual (Sample.parameters None) [] = Ok obj'
    /\ boundaryIDs obj' = [ANY_BOUNDARY_ID]
    /\ _boundary_restricted obj' = false.
Proof.
  destruct (C10_named_sentinel_is_restricted
              (Sample.parameters (Some ["ANY_BOUNDARY_ID"])) []
              Sample.mesh ["ANY_BOUNDARY_ID"])
    as (Hany & Hyields & Hother);
    [reflexivity | reflexivity | discriminate | by repeat constructor |].
  destruct Hyields as [obj Hok]; [by right; left|].
  destruct (Hany obj Hok) as [Hids Hflag].
  destruct (Hother (Sample.parameters None) [] Sample.mesh)
    as (obj' & Hok' & Hids' & Hflag'); [reflexivity | by left |].
  exists obj, obj'. tauto.
Defined.

(** [_mesh] is given beside an FEProblem that has another, empty mesh. *)
Lemma X2_mesh_precedence_witness :
  let other := {| getBoundaryIDs _ _ := []; meshBoundaryIds := [] |} in
  let parameters :=
    {| p_name := "bc"; p_boundary := Some ["left"];
       p_dual_restrictable := false;
       p_fe_problem := Some {| mesh := other; getCurrentBoundaryID := 0 |};
       p_mesh := Some Sample.mesh |} in
  exists obj,
    BoundaryRestrictable parameters = Ok obj
    /\ _bnd_mesh obj = Some Sample.mesh.
Proof.
  intros other parameters. eexists. split; [reflexivity|].
  refine (proj1 (X2_mesh_precedence parameters [] _ eq_refl) Sample.mesh eq_refl).
Defined.

Lemma X3_construction_succeeds_iff_witness :
  exists obj,
    BoundaryRestrictable_dual (Sample.parameters (Some ["left"; "right"])) [1; 65535]
    = Ok obj.
Proof.
  refine (proj2 (X3_construction_succeeds_iff
                   (Sample.parameters (Some ["left"; "right"])) [1; 65535]
                   Sample.mesh eq_refl _) _).
  - apply (bool_decide_unpack _). vm_compute. exact I.
  - split.
    + intros (_ & _ & _ & Hblock). apply Hblock.
      apply (bool_decide_unpack _). vm_compute. exact I.
    + right. intros id Hid.
      change (id ∈ [2; 4]) in Hid.
      rewrite !elem_of_cons, elem_of_nil in Hid.
      destruct Hid as [->|[->|[]]];
        apply (bool_decide_unpack _); vm_compute; exact I.
Defined.

Lemma X4_restrictions_exclusive_witness :
  let obj :=
    initialized (Sample.parameters (Some ["left"])) [1; 65535]
      Sample.mesh [2] ["left"] true in
  _bnd_dual_restrictable obj = true
  \/ _block_ids obj = [] \/ ANY_BLOCK_ID ∈ _block_ids obj.
Proof.
  intros obj.
  refine (proj2 (proj2 (X4_restrictions_exclusive
                   (Sample.parameters (Some ["left"])) [1; 65535] obj
                   eq_refl)) eq_refl).
Defined.

Lemma X5_ids_exist_on_mesh_witness :
  let obj :=
    initialized (Sample.parameters (Some ["left"; "right"])) []
      Sample.mesh [2; 4] ["left"; "right"] true in
  isBoundarySubset obj (meshBoundaryIds Sample.mesh) = Some true.
Proof.
  intros obj.
  refine (proj2 (X5_ids_exist_on_mesh
                   (Sample.parameters (Some ["left"; "right"])) []
                   Sample.mesh obj eq_refl _ eq_refl)).
  apply (bool_decide_unpack _). vm_compute. exact I.
Defined.

Lemma X6_names_and_flag_witness :
  let obj :=
    initialized (Sample.parameters (Some ["right"; "left"; "right"])) []
      Sample.mesh [2; 4] ["right"; "left"; "right"] true in
  Some ["right"; "left"; "right"] = Some (boundaryNames obj)
  /\ boundaryIDs obj = [2; 4].
Proof.
  intros obj.
  refine (proj2 (proj2 (X6_names_and_flag
                   (Sample.parameters (Some ["right"; "left"; "right"])) []
                   Sample.mesh obj eq_refl eq_refl)) eq_refl).
Defined.

Lemma X7_numBoundaryIDs_bounds_witness :
  let obj :=
    initialized (Sample.parameters (Some ["right"; "left"; "right"])) []
      Sample.mesh [2; 4] ["right"; "left"; "right"] true in
  (numBoundaryIDs obj <= Nat.max 1 3)%nat.
Proof.
  intros obj.
  refine (proj2 (proj2 (proj2 (X7_numBoundaryIDs_bounds
                   (Sample.parameters (Some ["right"; "left"; "right"])) []
                   Sample.mesh obj eq_refl eq_refl)))
            ["right"; "left"; "right"] eq_refl _).
  apply (bool_decide_unpack _). vm_compute. exact I.
Defined.

Lemma X8_hasBoundary_vector_witness :
  let this :=
    initialized (Sample.parameters (Some ["left"; "right"])) []
      Sample.mesh [2; 4] ["left"; "right"] true in
  hasBoundary_vector this [4; 2; 4] ALL = hasBoundary_vector this [2; 4] ALL.
Proof.
  intros this.
  refine (proj2 (proj2 (X8_hasBoundary_vector
                   (Sample.parameters (Some ["left"; "right"])) [] this
                   eq_refl)) [4; 2; 4] [2; 4] ALL _).
  intros id. rewrite !elem_of_cons, elem_of_nil. tauto.
Defined.

Lemma X9_isBoundarySubset_vector_witness :
  let this :=
    initialized (Sample.parameters (Some ["left"; "right"])) []
      Sample.mesh [2; 4] ["left"; "right"] true in
  exists answer,
    isBoundarySubset_vector this [4; 3; 2; 4] = Some answer
    /\ (answer = true <->
         [4; 3; 2; 4] = [] \/ ANY_BOUNDARY_ID ∈ [4; 3; 2; 4]
         \/ (ANY_BOUNDARY_ID ∈ boundaryIDs this
             /\ forall id, id ∈ meshBoundaryIds Sample.mesh -> id ∈ [4; 3; 2; 4])
         \/ ((ANY_BOUNDARY_ID ∉ boundaryIDs this)
             /\ forall id, id ∈ boundaryIDs this -> id ∈ [4; 3; 2; 4])).
Proof.
  intros this.
  refine (X9_isBoundarySubset_vector
            (Sample.parameters (Some ["left"; "right"])) [] Sample.mesh
            this [4; 3; 2; 4] eq_refl _ eq_refl).
  apply (bool_decide_unpack _). vm_compute. exact I.
Defined.

Lemma X10_all_implies_any_witness :
  let this :=
    initialized (Sample.parameters (Some ["left"; "right"])) []
      Sample.mesh [2; 4] ["left"; "right"] true in
  hasBoundary_set this [2; 4] ANY = true.
Proof.
  intros this. apply (X10_all_implies_any this [2; 4]). reflexivity.
Defined.

Lemma X11_singleton_query_witness :
  let this :=
    initialized (Sample.parameters (Some ["left"; "right"])) []
      Sample.mesh [2; 4] ["left"; "right"] true in
  hasBoundary_set this [9] ANY = hasBoundary this 9.
Proof.
  intros this.
  refine (X11_singleton_query
            (Sample.parameters (Some ["left"; "right"])) [] this 9 ANY
            eq_refl _).
  discriminate.
Defined.

Lemma X12_both_tests_pin_the_set_witness :
  let this :=
    initialized (Sample.parameters (Some ["left"; "right"])) []
      Sample.mesh [2; 4] ["left"; "right"] true in
  hasBoundary_set this [2; 4] ALL = true
  /\ isBoundarySubset this [2; 4] = Some true.
Proof.
  intros this.
  refine (proj2 (X12_both_tests_pin_the_set
                   (Sample.parameters (Some ["left"; "right"])) [] Sample.mesh
                   this [2; 4] eq_refl _ eq_refl _ _ _ _) eq_refl).
  - apply (bool_decide_unpack _). vm_compute. exact I.
  - apply (bool_decide_unpack _). vm_compute. exact I.
  - discriminate.
  - apply (bool_decide_unpack _). vm_compute. exact I.
  - apply (bool_decide_unpack _). vm_compute. exact I.
Defined.

Lemma X13_tests_are_monotone_witness :
  let this :=
    initialized (Sample.parameters (Some ["left"; "right"])) []
      Sample.mesh [2; 4] ["left"; "right"] true in
  isBoundarySubset this [2; 3; 4] = Some true.
Proof.
  intros this.
  refine (proj1 (X13_tests_are_monotone
                   (Sample.parameters (Some ["left"; "right"])) [] Sample.mesh
                   this [2; 4] [2; 3; 4] eq_refl _ eq_refl _ _ _) _ _ eq_refl).
  - apply (bool_decide_unpack _). vm_compute. exact I.
  - apply (bool_decide_unpack _). vm_compute. exact I.
  - apply (bool_decide_unpack _). vm_compute. exact I.
  - intros id. rewrite !elem_of_cons, elem_of_nil. tauto.
  - discriminate.
  - apply (bool_decide_unpack _). vm_compute. exact I.
Defined.

Lemma X14_tests_on_names_witness :
  let this :=
    initialized (Sample.parameters (Some ["left"; "right"])) []
      Sample.mesh [2; 4] ["left"; "right"] true in
  hasBoundary_name false ANY this "top" = Some (hasBoundary this 9).
Proof.
  intros this.
  refine (proj2 (X14_tests_on_names
                   (Sample.parameters (Some ["left"; "right"])) [] Sample.mesh
                   this eq_refl eq_refl) false ANY "top" 9 eq_refl _).
  discriminate.
Defined.

Lemma X1_no_mesh_error_witness :
  BoundaryRestrictable
    {| p_name := "bc"; p_boundary := Some ["left"];
       p_dual_restrictable := false; p_fe_problem := None; p_mesh := None |}
  = mooseError no_mesh_msg.
Proof.
  apply (X1_no_mesh_error
           {| p_name := "bc"; p_boundary := Some ["left"];
              p_dual_restrictable := false; p_fe_problem := None;
              p_mesh := None |} []).
  split; reflexivity.
Defined.

End OnSample.

End BoundaryRestrictableFacts.

(** ** Facts about MaterialProperty *)

Module MaterialPropertyFacts.
Import MaterialProperty.

Section WithElementType.
Context {T : Type}.
Implicit Types (h : gmap addr (list T)) (a : MooseArray T) (this : t T).

Lemma get_lookup h a cells i :
  h !! _data a = Some cells -> get h a i = cells !! i.
Proof. intros Hd. unfold get. by rewrite Hd. Qed.

Lemma set_lookup h a cells i v :
  h !! _data a = Some cells -> (i < length cells)%nat ->
  set h a i v = Some (<[_data a := <[i := v]> cells]> h).
Proof. intros Hd Hi. unfold set. rewrite Hd. cbn. by rewrite decide_True. Qed.


Section Persistence.
Context `{ScalarIO T}.

Lemma store_loop_seq h this cells (k i : nat) (stream : ofstream) :
  h !! _data (_value this) = Some cells ->
  (i + k <= length cells)%nat ->
  store_loop h this (seq i k) stream
    = Some (stream ++ concat (image <$> take k (drop i cells))).
Proof.
  intros Hd. revert i stream.
  induction k as [|k IH]; intros i stream Hlen; cbn.
  { by rewrite take_0, app_nil_r. }
  destruct (lookup_lt_is_Some_2 cells i) as [v Hv]; [lia|].
  rewrite (get_lookup _ _ _ _ Hd), Hv. cbn.
  rewrite IH by lia.
  rewrite (drop_S _ _ _ Hv). cbn.
  by rewrite store_image, <- app_assoc.
Qed.

Lemma load_loop_seq this (vs : list T) :
  forall h cells (i : nat) (rest : ifstream),
    h !! _data (_value this) = Some cells ->
    (i + length vs <= length cells)%nat ->
    load_loop this (seq i (length vs)) h (concat (image <$> vs) ++ rest)
      = Some (<[_data (_value this) :=
                 take i cells ++ vs ++ drop (i + length vs) cells]> h,
              rest).
Proof.
  induction vs as [|v vs IH]; intros h cells i rest Hd Hlen; cbn.
  { rewrite Nat.add_0_r, take_drop. by rewrite insert_id. }
  cbn in Hlen.
  destruct (lookup_lt_is_Some_2 cells i) as [old Hold]; [lia|].
  rewrite (get_lookup _ _ _ _ Hd), Hold. cbn.
  rewrite <- app_assoc, load_image.
  rewrite (set_lookup _ _ _ _ _ Hd) by lia. cbn.
  rewrite (IH _ (<[i := v]> cells)).
  - f_equal. f_equal. rewrite insert_insert_eq. f_equal.
    rewrite take_insert_lt by lia.
    rewrite (take_S_r _ _ _ Hold).
    rewrite insert_app_r_alt by (rewrite length_take_le; lia).
    rewrite length_take_le, Nat.sub_diag by lia. cbn.
    rewrite <- app_assoc. cbn.
    rewrite drop_insert_lt by lia.
    by rewrite Nat.add_succ_r.
  - by rewrite lookup_insert_eq.
  - rewrite length_insert. lia.
Qed.

Lemma values_Some h this vs :
  values h this = Some vs ->
  exists cells,
    h !! _data (_value this) = Some cells
    /\ (size (_value this) <= length cells)%nat
    /\ vs = take (size (_value this)) cells.
Proof.
  unfold values. destruct (h !! _data (_value this)) as [cells|]; [cbn|done].
  case_decide; [|done]. intros [= <-]. eauto.
Qed.

(** C7.  Let a slot hold the values [vs] (as many as its size) of a
    scalar element type.  Storing it appends some bytes to the
    stream, and loading those bytes into any slot of the same size
    leaves that slot holding exactly [vs], in order, with the
    stream read up to the end of the stored bytes. *)
Theorem C7_store_load_round_trip h this (vs : list T) (stream : ofstream) :
  values h this = Some vs ->
  exists bytes,
    store h this stream = Some (stream ++ bytes)
    /\ forall h' (that : t T) (rest : ifstream),
         property_size that = property_size this ->
         is_Some (values h' that) ->
         exists h'',
           load h' that (bytes ++ rest) = Some (h'', rest)
           /\ values h'' that = Some vs.
Proof.
  intros Hvs.
  destruct (values_Some _ _ _ Hvs) as (cells & Hd & Hlen & ->).
  exists (concat (image <$> take (size (_value this)) cells)). split.
  { unfold store.
    by rewrite (store_loop_seq _ _ cells _ 0%nat _ Hd) by (cbn; lia). }
  intros h' that rest Hsize [vs' Hvs'].
  unfold property_size in Hsize.
  destruct (values_Some _ _ _ Hvs') as (cells' & Hd' & Hlen' & _).
  set (vs := take (size (_value this)) cells).
  assert (Hn : length vs = size (_value that)).
  { unfold vs. rewrite length_take_le; [by symmetry | exact Hlen]. }
  unfold load. rewrite <- Hn.
  rewrite (load_loop_seq that vs h' cells' 0 rest Hd') by (cbn; lia).
  eexists. split; [reflexivity|].
  unfold values. rewrite lookup_insert_eq. cbn.
  rewrite decide_True.
  - f_equal. rewrite <- Hn, take_0. cbn. by rewrite take_app_length.
  - rewrite take_0. cbn. rewrite length_app, length_drop. cbn. lia.
Qed.
End Persistence.



Section Copying.
Context `{Typeid T}.



End Copying.

(** *** What [store] and [load] touch *)

Lemma set_get_other h a b i j v h' :
  set h a i v = Some h' ->
  _data b ≠ _data a \/ j ≠ i ->
  get h' b j = get h b j.
Proof.
  unfold set, get. destruct (h !! _data a) as [cells|] eqn:Hd; [cbn|done].
  case_decide; [|done]. intros [= <-] Hother.
  destruct (decide (_data b = _data a)) as [Heq|Hne].
  - rewrite Heq, lookup_insert_eq, Hd. cbn.
    apply list_lookup_insert_ne. destruct Hother; congruence.
  - by rewrite lookup_insert_ne.
Qed.

Lemma set_lookup_other h a i v h' (d : addr) :
  set h a i v = Some h' -> d ≠ _data a -> h' !! d = h !! d.
Proof.
  unfold set. destruct (h !! _data a) as [cells|]; [cbn|done].
  case_decide; [|done]. intros [= <-] Hne. by rewrite lookup_insert_ne.
Qed.

Lemma set_length h a i v h' cells :
  set h a i v = Some h' -> h !! _data a = Some cells ->
  exists cells', h' !! _data a = Some cells' /\ length cells' = length cells.
Proof.
  unfold set. intros Hset Hd. rewrite Hd in Hset. cbn in Hset.
  case_decide; [|done]. injection Hset as <-.
  eexists. rewrite lookup_insert_eq. split; [reflexivity|].
  apply length_insert.
Qed.

Section Loading.
Context `{MaterialPropertyIO T}.

Lemma load_loop_frame this indices :
  forall h stream h' stream',
    load_loop this indices h stream = Some (h', stream') ->
    (forall b j, _data b ≠ _data (_value this) \/ j ∉ indices ->
                 get h' b j = get h b j)
    /\ (forall d, d ≠ _data (_value this) -> h' !! d = h !! d)
    /\ (forall cells, h !! _data (_value this) = Some cells ->
          exists cells', h' !! _data (_value this) = Some cells'
                         /\ length cells' = length cells).
Proof.
  induction indices as [|i indices IH]; intros h stream h' stream'; cbn.
  { intros [= <- <-]. repeat split; eauto. }
  destruct (get h (_value this) i) as [old|]; [cbn|done].
  destruct (materialPropertyLoad stream old) as [stream1 v].
  destruct (set h (_value this) i v) as [h1|] eqn:Hset; [cbn|done].
  intros Hloop. destruct (IH _ _ _ _ Hloop) as (Hget & Hlook & Hlen).
  split; [|split].
  - intros b j Hother. rewrite Hget.
    + apply (set_get_other _ _ _ _ _ _ _ Hset).
      destruct Hother as [?|Hj]; [by left|right].
      intros ->. apply Hj. left.
    + destruct Hother as [?|Hj]; [by left|right].
      intros Hin. apply Hj. by right.
  - intros d Hd. rewrite (Hlook d Hd).
    by apply (set_lookup_other _ _ _ _ _ _ Hset).
  - intros cells Hcells.
    destruct (set_length _ _ _ _ _ _ Hset Hcells) as (cells1 & Hc1 & Hl1).
    destruct (Hlen _ Hc1) as (cells' & Hc' & Hl').
    exists cells'. split; [done | lia].
Qed.

(** X15.  [load] writes to the first [size] elements of the storage of
    its own slot and to nothing else: what is read at any index of
    another storage, and at the indices from [size] on of its own, is
    what was read before; and the storage keeps its length. *)
Theorem X15_load_frame h this (stream : ifstream) h' (stream' : ifstream) :
  load h this stream = Some (h', stream') ->
  (forall b j, _data b ≠ _data (_value this) -> get h' b j = get h b j)
  /\ (forall j, (property_size this <= j)%nat ->
                get h' (_value this) j = get h (_value this) j)
  /\ (forall cells, h !! _data (_value this) = Some cells ->
        exists cells', h' !! _data (_value this) = Some cells'
                       /\ length cells' = length cells).
Proof.
  unfold load, property_size. intros Hload.
  destruct (load_loop_frame _ _ _ _ _ _ Hload) as (Hget & _ & Hlen).
  split; [|split].
  - intros b j Hne. apply Hget. by left.
  - intros j Hj. apply Hget. right.
    rewrite elem_of_seq. lia.
  - exact Hlen.
Qed.

(** *** When [store] and [load] are defined *)

Lemma values_is_Some h this :
  is_Some (values h this) <->
  exists cells, h !! _data (_value this) = Some cells
                /\ (size (_value this) <= length cells)%nat.
Proof.
  unfold values. split.
  - intros [vs Hvs].
    destruct (h !! _data (_value this)) as [cells|]; [cbn in Hvs|done].
    case_decide; [|done]. eauto.
  - intros (cells & -> & Hlen). cbn. rewrite decide_True by done. by eexists.
Qed.

Lemma store_loop_defined h this (k i : nat) (stream : ofstream) :
  is_Some (store_loop h this (seq i k) stream) <->
  k = 0%nat
  \/ exists cells, h !! _data (_value this) = Some cells
                   /\ (i + k <= length cells)%nat.
Proof.
  revert i stream. induction k as [|k IH]; intros i stream; cbn.
  { split; [by left | by eexists]. }
  unfold get at 1.
  destruct (h !! _data (_value this)) as [cells|] eqn:Hd; cbn.
  - destruct (cells !! i) as [v|] eqn:Hv; cbn.
    + apply lookup_lt_Some in Hv. rewrite IH. split.
      * intros [->|(cells' & [= <-] & Hlen)]; right; exists cells;
          (split; [done | lia]).
      * intros [?|(cells' & [= <-] & Hlen)]; [done|].
        destruct k; [by left|]. right. exists cells. split; [done | lia].
    + apply lookup_ge_None in Hv. split; [by intros [? ?]|].
      intros [?|(cells' & [= <-] & Hlen)]; [done | lia].
  - split; [by intros [? ?]|]. intros [?|(cells' & ? & _)]; done.
Qed.

Lemma load_loop_defined this (k : nat) :
  forall (i : nat) h (stream : ifstream),
    is_Some (load_loop this (seq i k) h stream) <->
    k = 0%nat
    \/ exists cells, h !! _data (_value this) = Some cells
                     /\ (i + k <= length cells)%nat.
Proof.
  induction k as [|k IH]; intros i h stream; cbn.
  { split; [by left | by eexists]. }
  unfold get at 1.
  destruct (h !! _data (_value this)) as [cells|] eqn:Hd; cbn.
  - destruct (cells !! i) as [old|] eqn:Hv; cbn.
    + apply lookup_lt_Some in Hv.
      destruct (materialPropertyLoad stream old) as [stream1 v].
      rewrite (set_lookup _ _ _ _ _ Hd Hv). cbn. rewrite IH.
      rewrite lookup_insert_eq. split.
      * intros [->|(cells' & [= <-] & Hlen)]; right; exists cells;
          (split; [done|]); [lia|].
        rewrite length_insert in Hlen. lia.
      * intros [?|(cells' & [= <-] & Hlen)]; [done|].
        destruct k; [by left|]. right. eexists. split; [done|].
        rewrite length_insert. lia.
    + apply lookup_ge_None in Hv. split; [by intros [? ?]|].
      intros [?|(cells' & [= <-] & Hlen)]; [done | lia].
  - split; [by intros [? ?]|]. intros [?|(cells' & ? & _)]; done.
Qed.

(** X16.  [store] and [load] are defined exactly when the slot is empty
    or its storage holds at least [size] elements: the loops read and
    write the indices below [size] and rely on the caller for the
    storage being there. *)
Theorem X16_store_load_defined h this (out : ofstream) (inp : ifstream) :
  (is_Some (store h this out) <->
     property_size this = 0%nat \/ is_Some (values h this))
  /\ (is_Some (load h this inp) <->
       property_size this = 0%nat \/ is_Some (values h this)).
Proof.
  unfold store, load, property_size.
  rewrite store_loop_defined, load_loop_defined, values_is_Some.
  split; (split; intros [?|(cells & ? & ?)]; [by left | right | by left | right]);
    exists cells; (split; [done | lia]).
Qed.

End Loading.

Section Streams.
Context `{ScalarIO T}.

(** *** The bytes of a slot *)

Lemma store_values h this vs (stream : ofstream) :
  values h this = Some vs ->
  store h this stream = Some (stream ++ concat (image <$> vs)).
Proof.
  intros Hvs. destruct (values_Some _ _ _ Hvs) as (cells & Hd & Hlen & ->).
  unfold store. by rewrite (store_loop_seq _ _ cells _ 0%nat _ Hd) by (cbn; lia).
Qed.

Lemma load_values h this vs (rest : ifstream) :
  is_Some (values h this) ->
  length vs = property_size this ->
  exists h',
    load h this (concat (image <$> vs) ++ rest) = Some (h', rest)
    /\ values h' this = Some vs.
Proof.
  intros [vs0 Hvs0] Hn. unfold property_size in Hn.
  destruct (values_Some _ _ _ Hvs0) as (cells & Hd & Hlen & _).
  unfold load. rewrite <- Hn.
  rewrite (load_loop_seq this vs h cells 0 rest Hd) by (cbn; lia).
  eexists. split; [reflexivity|].
  unfold values. rewrite lookup_insert_eq. cbn.
  rewrite decide_True.
  - f_equal. rewrite <- Hn, take_0. cbn. by rewrite take_app_length.
  - rewrite take_0. cbn. rewrite length_app, length_drop. cbn. lia.
Qed.

Lemma values_length h this vs :
  values h this = Some vs -> length vs = property_size this.
Proof.
  intros Hvs. destruct (values_Some _ _ _ Hvs) as (cells & _ & Hlen & ->).
  by rewrite length_take_le.
Qed.

Lemma values_frame h h' this :
  h' !! _data (_value this) = h !! _data (_value this) ->
  values h' this = values h this.
Proof. unfold values. by intros ->. Qed.

(** X17.  [store] appends to the stream the images of the values of
    the slot, one after the other in index order, and nothing else; so
    two slots holding the same values are stored as the same bytes, and
    with images of one width [w] a slot of size [n] takes [n * w] bytes. *)
Theorem X17_store_format h this vs (stream : ofstream) :
  values h this = Some vs ->
  store h this stream = Some (stream ++ concat (image <$> vs))
  /\ (forall h' (that : t T) (stream' : ofstream) out out',
        values h' that = Some vs ->
        store h this stream = Some out ->
        store h' that stream' = Some out' ->
        drop (length stream) out = drop (length stream') out')
  /\ (forall (w : nat) out,
        (forall v, length (image v) = w) ->
        store h this stream = Some out ->
        length out = (length stream + property_size this * w)%nat).
Proof.
  intros Hvs. split; [by apply store_values|]. split.
  - intros h' that stream' out out' Hvs'.
    rewrite (store_values _ _ _ _ Hvs), (store_values _ _ _ _ Hvs').
    intros [= <-] [= <-]. by rewrite !drop_app_length.
  - intros w out Hw. rewrite (store_values _ _ _ _ Hvs). intros [= <-].
    rewrite length_app, <- (values_length _ _ _ Hvs). f_equal.
    clear Hvs. induction vs as [|v vs IH]; [reflexivity|].
    cbn. rewrite length_app, Hw, IH. lia.
Qed.

(** X18.  Several slots go through one stream: when two slots are stored
    one after the other, loading two slots of the same sizes and of
    separate storage in that order gives the first the values of the
    first and the second the values of the second. *)
Theorem X18_two_slots_round_trip h (a b : t T) va vb (stream : ofstream) :
  values h a = Some va ->
  values h b = Some vb ->
  exists bytes_a bytes_b,
    store h a stream = Some (stream ++ bytes_a)
    /\ store h b (stream ++ bytes_a) = Some (stream ++ bytes_a ++ bytes_b)
    /\ forall h0 (a' b' : t T) (rest : ifstream),
         property_size a' = property_size a ->
         property_size b' = property_size b ->
         is_Some (values h0 a') ->
         is_Some (values h0 b') ->
         _data (_value a') ≠ _data (_value b') ->
         exists h1 h2,
           load h0 a' (bytes_a ++ bytes_b ++ rest) = Some (h1, bytes_b ++ rest)
           /\ load h1 b' (bytes_b ++ rest) = Some (h2, rest)
           /\ values h2 a' = Some va
           /\ values h2 b' = Some vb.
Proof.
  intros Hva Hvb.
  exists (concat (image <$> va)), (concat (image <$> vb)).
  split; [by apply store_values|].
  split; [by rewrite (store_values _ _ _ _ Hvb), <- app_assoc|].
  intros h0 a' b' rest Hsa Hsb Ha' Hb' Hsep.
  destruct (load_values h0 a' va (concat (image <$> vb) ++ rest) Ha')
    as (h1 & Hl1 & Hv1).
  { by rewrite (values_length _ _ _ Hva). }
  destruct (load_loop_frame _ _ _ _ _ _ Hl1) as (_ & Hlook1 & _).
  destruct (load_values h1 b' vb rest) as (h2 & Hl2 & Hv2).
  { rewrite (values_frame h0 h1); [done|]. apply Hlook1. congruence. }
  { by rewrite (values_length _ _ _ Hvb). }
  destruct (load_loop_frame _ _ _ _ _ _ Hl2) as (_ & Hlook2 & _).
  exists h1, h2. split; [done|]. split; [done|]. split; [|done].
  rewrite (values_frame h1 h2); [done|]. by apply Hlook2.
Qed.

(** X19.  The other way round: a slot that was just loaded from the
    images of as many values as it has elements, when stored, writes the
    bytes it read. *)
Theorem X19_load_store_round_trip h this vs (rest : ifstream) h' stream' :
  is_Some (values h this) ->
  length vs = property_size this ->
  load h this (concat (image <$> vs) ++ rest) = Some (h', stream') ->
  stream' = rest
  /\ forall out : ofstream,
       store h' this out = Some (out ++ concat (image <$> vs)).
Proof.
  intros Hv Hn Hload.
  destruct (load_values h this vs rest Hv Hn) as (h1 & Hl1 & Hv1).
  rewrite Hl1 in Hload. injection Hload as <- <-.
  split; [reflexivity|]. intros out. by apply store_values.
Qed.

End Streams.

End WithElementType.

(** [unsigned char] is a scalar for persistence. *)
#[global] Instance uchar_scalar : ScalarIO Byte.byte.
Proof. by refine {| image v := [v] |}. Defined.

(** *** The statements at work on a small free store *)

Lemma C7_store_load_round_trip_witness :
  exists bytes,
    store Sample.heap (Sample.slot 1) [] = Some bytes
    /\ exists h'',
         load Sample.heap (Sample.slot 2) bytes = Some (h'', [])
         /\ values h'' (Sample.slot 2) = Some [Byte.x01; Byte.x02; Byte.x03].
Proof.
  destruct (C7_store_load_round_trip Sample.heap (Sample.slot 1)
              [Byte.x01; Byte.x02; Byte.x03] [])
    as (bytes & Hstore & Hload); [reflexivity|].
  exists bytes. split; [exact Hstore|].
  destruct (Hload Sample.heap (Sample.slot 2) []) as (h'' & Hl & Hv);
    [reflexivity | by eexists |].
  exists h''. split; [|exact Hv]. by rewrite app_nil_r in Hl.
Defined.



(** Loading into the slot at address 2 leaves the slot at address 1 alone. *)
Lemma X15_load_frame_witness :
  exists h',
    load Sample.heap (Sample.slot 2) [Byte.x0a; Byte.x0b; Byte.x0c] = Some (h', [])
    /\ get h' (_value (Sample.slot 1)) 0 = Some Byte.x01.
Proof.
  destruct (load Sample.heap (Sample.slot 2) [Byte.x0a; Byte.x0b; Byte.x0c])
    as [[h' stream']|] eqn:Hload; [|by vm_compute in Hload].
  assert (Hrest : stream' = []) by (vm_compute in Hload; congruence).
  subst stream'. exists h'. split; [reflexivity|].
  destruct (X15_load_frame _ _ _ _ _ Hload) as (Hother & _).
  rewrite (Hother (_value (Sample.slot 1)) 0%nat); [reflexivity | discriminate].
Defined.

Lemma X17_store_format_witness :
  store Sample.heap (Sample.slot 1) [Byte.xff]
  = Some ([Byte.xff] ++ [Byte.x01; Byte.x02; Byte.x03]).
Proof.
  exact (proj1 (X17_store_format Sample.heap (Sample.slot 1)
                  [Byte.x01; Byte.x02; Byte.x03] [Byte.xff] eq_refl)).
Defined.

(** The two sample slots are stored, then loaded each into the other. *)
Lemma X18_two_slots_round_trip_witness :
  exists bytes_a bytes_b h1 h2,
    store Sample.heap (Sample.slot 1) [] = Some bytes_a
    /\ store Sample.heap (Sample.slot 2) bytes_a = Some (bytes_a ++ bytes_b)
    /\ load Sample.heap (Sample.slot 2) (bytes_a ++ bytes_b) = Some (h1, bytes_b)
    /\ load h1 (Sample.slot 1) bytes_b = Some (h2, [])
    /\ values h2 (Sample.slot 2) = Some [Byte.x01; Byte.x02; Byte.x03]
    /\ values h2 (Sample.slot 1) = Some [Byte.x00; Byte.x00; Byte.x00].
Proof.
  destruct (X18_two_slots_round_trip Sample.heap (Sample.slot 1) (Sample.slot 2)
              [Byte.x01; Byte.x02; Byte.x03] [Byte.x00; Byte.x00; Byte.x00] []
              eq_refl eq_refl)
    as (bytes_a & bytes_b & Hsa & Hsb & Hload).
  destruct (Hload Sample.heap (Sample.slot 2) (Sample.slot 1) [])
    as (h1 & h2 & Hl1 & Hl2 & Hv1 & Hv2);
    [reflexivity | reflexivity | by eexists | by eexists | discriminate |].
  rewrite !app_nil_r in Hl1, Hl2.
  exists bytes_a, bytes_b, h1, h2. tauto.
Defined.

Lemma X19_load_store_round_trip_witness :
  exists h',
    load Sample.heap (Sample.slot 2) [Byte.x0a; Byte.x0b; Byte.x0c] = Some (h', [])
    /\ store h' (Sample.slot 2) [] = Some [Byte.x0a; Byte.x0b; Byte.x0c].
Proof.
  destruct (load Sample.heap (Sample.slot 2) [Byte.x0a; Byte.x0b; Byte.x0c])
    as [[h' stream']|] eqn:Hload; [|by vm_compute in Hload].
  destruct (X19_load_store_round_trip Sample.heap (Sample.slot 2)
              [Byte.x0a; Byte.x0b; Byte.x0c] [] h' stream')
    as [-> Hstore]; [by eexists | reflexivity | exact Hload |].
  exists h'. split; [reflexivity|]. exact (Hstore []).
Defined.


(** A slot of size 3 on storage of two elements only. *)
Lemma X16_store_load_defined_witness :
  store {[ 1%positive := [Byte.x01; Byte.x02] ]} (Sample.slot 1) [] = None.
Proof.
  apply eq_None_not_Some.
  rewrite (proj1 (X16_store_load_defined
                    {[ 1%positive := [Byte.x01; Byte.x02] ]} (Sample.slot 1) [] [])).
  intros [Hsize|[vs Hvs]]; [discriminate Hsize | by vm_compute in Hvs].
Defined.

End MaterialPropertyFacts.
